(** * voices: the client-side text-to-speech pipeline (src/lib/clientTts.ts)

    A shallow embedding of the synthesis core: the chunker, the codepoint
    indexer, the mask builder, the latent sampler, the inference
    orchestrator, the synthesis facade and the WAV encoder.

    Conventions of the embedding.
    - A JS string is its sequence of UTF-16 code units ([jsstring]);
      [.length] is the length of that sequence.
    - A JS [number] that the code computes with is an exact rational ([Q]):
      rounding to double or to float32, NaN and the infinities are not
      represented.  Where the code would produce a non-finite number the
      model raises [NonFinite] at the first place the number is used as a
      length.  Numbers that the code uses as counts, lengths, array sizes
      or byte values are integers ([Z], [nat]).
    - A thrown exception is the [Err] of a [result]; the inference
      sessions, [Math.random], the NFKC normalization and the asset
      fetches are parameters ([TextToSpeech.t], [Host]).  Every session
      run is recorded in the [World], so that "no session was run" is a
      statement about a value.
    - [await] is sequencing: one request is followed from start to end. *)

From Stdlib Require Import ZArith QArith Qround Qminmax Lia String Ascii List Bool.
From stdpp Require Import base list.
Import ListNotations.

(* ===================================================================== *)
(** ** Strings *)
(* ===================================================================== *)

Abbreviation jsstring := (list N).

(** A string literal of the source, as code units (ASCII only). *)
Definition js (s : string) : jsstring := map N_of_ascii (list_ascii_of_string s).

(** ECMAScript WhiteSpace and LineTerminator code units: what [\s] matches
    and what [String.prototype.trim] strips. *)
Definition isWhiteSpace (c : N) : bool :=
  existsb (N.eqb c)
    [9; 10; 11; 12; 13; 32; 160; 5760; 8232; 8233; 8239; 8287; 12288; 65279]%N
  || ((8192 <=? c) && (c <=? 8202))%N.

Fixpoint dropWhile {A} (f : A -> bool) (l : list A) : list A :=
  match l with
  | [] => []
  | x :: l' => if f x then dropWhile f l' else l
  end.

Fixpoint takeWhile {A} (f : A -> bool) (l : list A) : list A :=
  match l with
  | [] => []
  | x :: l' => if f x then x :: takeWhile f l' else []
  end.

(** [s.trim()] *)
Definition trim (s : jsstring) : jsstring :=
  rev (dropWhile isWhiteSpace (rev (dropWhile isWhiteSpace s))).

(** A regular expression of the source, as the function that tries it at one
    position: [m before rest] is given the text before the position,
    nearest unit first (for the look-behinds), and the text from the
    position on; it answers the number of units the match consumes. *)
Definition matcher : Type := jsstring -> jsstring -> option nat.

(** [s.split(re)] for a regular expression without capture groups whose
    matches are never empty (both expressions of [chunkText] consume at
    least one unit).  The scan goes left to right; [piece] holds the units
    of the current piece, last first; [skip] counts the units of a
    separator still to be passed over.  A match at the current position
    closes the piece; the scan resumes after the separator. *)
Fixpoint splitFrom (m : matcher) (before piece : jsstring) (skip : nat)
    (rest : jsstring) : list jsstring :=
  match rest with
  | [] => [rev piece]
  | c :: rest' =>
      match skip with
      | S k => splitFrom m (c :: before) [] k rest'
      | O =>
          match m before rest with
          | Some (S k) => rev piece :: splitFrom m (c :: before) [] k rest'
          | _ => splitFrom m (c :: before) (c :: piece) 0 rest'
          end
      end
  end.

Definition split (m : matcher) (s : jsstring) : list jsstring :=
  splitFrom m [] [] 0 s.

(** [/\n\s*\n+/] tried after a first newline: [\s*] is greedy and gives
    back units until a newline follows it, so the match ends just after
    the last newline of the white-space run; there is none when the run
    holds no newline. *)
Fixpoint lastNewlineEnd (w : jsstring) : option nat :=
  match w with
  | [] => None
  | c :: w' =>
      if isWhiteSpace c then
        match lastNewlineEnd w' with
        | Some k => Some (S k)
        | None => if (c =? 10)%N then Some 1 else None
        end
      else None
  end.

Definition matchParagraphSep : matcher := fun _ rest =>
  match rest with
  | c :: r => if (c =? 10)%N then option_map S (lastNewlineEnd r) else None
  | [] => None
  end.

(** The closed list of the first look-behind of the sentence expression. *)
Definition abbreviations : list jsstring :=
  map js ["Mr."; "Mrs."; "Ms."; "Dr."; "Prof."; "Sr."; "Jr."; "Ph.D."; "etc.";
          "e.g."; "i.e."; "vs."; "Inc."; "Ltd."; "Co."; "Corp."; "St."; "Ave.";
          "Blvd."]%string.

Fixpoint startsWith (w s : jsstring) : bool :=
  match w, s with
  | [], _ => true
  | a :: w', b :: s' => (a =? b)%N && startsWith w' s'
  | _ :: _, [] => false
  end.

(** The text before the position ends with [w]. *)
Definition endsWith (before w : jsstring) : bool := startsWith (rev w) before.

Definition isUpper (c : N) : bool := ((65 <=? c) && (c <=? 90))%N.

(** [\w] without flags: ASCII letters, digits and the underscore. *)
Definition isWordChar (c : N) : bool :=
  (isUpper c || ((97 <=? c) && (c <=? 122)) || ((48 <=? c) && (c <=? 57))
   || (c =? 95))%N.

(** [(?<!\b[A-Z]\.)] fails here: the two units before the position are an
    upper-case letter and a period, and the letter starts a word. *)
Definition afterInitial (before : jsstring) : bool :=
  match before with
  | dot :: letter :: prev =>
      (dot =? 46)%N && isUpper letter
      && match prev with
         | [] => true
         | p :: _ => negb (isWordChar p)
         end
  | _ => false
  end.

(** [(?<=[.!?])] *)
Definition afterTerminator (before : jsstring) : bool :=
  match before with
  | c :: _ => ((c =? 46) || (c =? 33) || (c =? 63))%N
  | [] => false
  end.

(** The sentence expression of [chunkText]: two negative look-behinds, one
    positive look-behind, then [\s+] (greedy: the whole white-space run). *)
Definition matchSentenceSep : matcher := fun before rest =>
  if existsb (endsWith before) abbreviations then None
  else if afterInitial before then None
  else if afterTerminator before then
    match length (takeWhile isWhiteSpace rest) with
    | O => None
    | n => Some n
    end
  else None.

(* ===================================================================== *)
(** ** Chunker *)
(* ===================================================================== *)

Definition isEmpty {A} (l : list A) : bool :=
  match l with [] => true | _ => false end.

Definition space : jsstring := [32%N].

(** One turn of the inner loop of [chunkText]; the state is the list of
    chunks pushed so far and [currentChunk]. *)
Definition packSentence (maxLen : Z) (st : list jsstring * jsstring)
    (sentence : jsstring) : list jsstring * jsstring :=
  let '(chunks, currentChunk) := st in
  if (Z.of_nat (length currentChunk) + Z.of_nat (length sentence) + 1 <=? maxLen)%Z
  then (chunks,
        currentChunk ++ (if isEmpty currentChunk then [] else space) ++ sentence)
  else ((if isEmpty currentChunk then chunks else chunks ++ [trim currentChunk]),
        sentence).

(** One turn of the outer loop of [chunkText]. *)
Definition packParagraph (maxLen : Z) (chunks : list jsstring)
    (paragraph : jsstring) : list jsstring :=
  let trimmed := trim paragraph in
  if isEmpty trimmed then chunks
  else
    let sentences := split matchSentenceSep trimmed in
    let '(chunks', currentChunk) :=
      fold_left (packSentence maxLen) sentences (chunks, []) in
    if isEmpty currentChunk then chunks' else chunks' ++ [trim currentChunk].

(** The default of the parameter [maxLen = 300]; [None] is the omitted
    argument. *)
Definition maxLenOrDefault (maxLen : option Z) : Z :=
  match maxLen with Some n => n | None => 300%Z end.

(** [chunkText(text, maxLen = 300)] *)
Definition chunkText (text : jsstring) (maxLen : option Z) : list jsstring :=
  let maxLen := maxLenOrDefault maxLen in
  let paragraphs :=
    List.filter (fun p => (0 <? length (trim p))%nat)
                (split matchParagraphSep (trim text)) in
  fold_left (packParagraph maxLen) paragraphs [].

(* ===================================================================== *)
(** ** Exceptions, arrays, numbers *)
(* ===================================================================== *)

Inductive Exn : Type :=
| Error (message : string)   (* [throw new Error(message)] *)
| RangeError                 (* an invalid array length, a DataView offset out of bounds *)
| NonFinite.                 (* a length that is NaN or infinite *)

Inductive result (A : Type) : Type :=
| Ok (a : A)
| Err (e : Exn).
Arguments Ok {A} a.
Arguments Err {A} e.

Definition bindR {A B} (r : result A) (k : A -> result B) : result B :=
  match r with
  | Ok a => k a
  | Err e => Err e
  end.

Notation "'let?' x ':=' e 'in' k" := (bindR e (fun x => k))
  (at level 10, x pattern, e at level 100, k at level 200).

(** [list.map(f)] for a callback that may throw. *)
Fixpoint mapR {A B} (f : A -> result B) (l : list A) : result (list B) :=
  match l with
  | [] => Ok []
  | x :: l' => let? y := f x in let? ys := mapR f l' in Ok (y :: ys)
  end.

(** An integer-valued number, or the [-Infinity] that [Math.max()] of no
    argument returns. *)
Inductive jsint : Type :=
| NegInfinity
| Int (z : Z).

(** [Math.max(...l)] on integers. *)
Definition mathMax (l : list Z) : jsint :=
  match l with
  | [] => NegInfinity
  | x :: l' => Int (fold_left Z.max l' x)
  end.

(** [new Array(n).fill(x)]: a RangeError unless [0 <= n < 2^32]. *)
Definition newArray {A} (n : jsint) (x : A) : result (list A) :=
  match n with
  | Int n =>
      if ((0 <=? n) && (n <? 2 ^ 32))%Z then Ok (replicate (Z.to_nat n) x)
      else Err RangeError
  | NegInfinity => Err RangeError
  end.

(** [row[j] = v].  Inside the array it overwrites; past the end a JS array
    grows and the skipped cells are holes, here filled with [hole]. *)
Definition arraySet {A} (hole : A) (j : nat) (v : A) (row : list A) : list A :=
  if (j <? length row)%nat then <[j := v]> row
  else row ++ replicate (j - length row) hole ++ [v].

(** [l[0] ?? d] *)
Definition firstOr {A} (d : A) (l : list A) : A :=
  match l with
  | x :: _ => x
  | [] => d
  end.

(** [lengthToMask(lengths, maxLen)], the same text in [UnicodeProcessor]
    and in [TextToSpeech]; [None] is the [null] default of [maxLen]. *)
Definition lengthToMask (lengths : list Z) (maxLen : option jsint)
    : result (list (list (list Q))) :=
  let actualMaxLen :=
    match maxLen with Some n => n | None => mathMax lengths end in
  mapR (fun len =>
          let? row := newArray actualMaxLen 0%Q in
          let limit :=
            match actualMaxLen with
            | Int m => Z.min len m
            | NegInfinity => 0%Z
            end in
          Ok [fold_left (fun row j => arraySet 0%Q j 1%Q row)
                        (seq 0 (Z.to_nat limit)) row])
       lengths.

(* ===================================================================== *)
(** ** Codepoint indexer *)
(* ===================================================================== *)

Definition isHighSurrogate (c : N) : bool := ((0xD800 <=? c) && (c <=? 0xDBFF))%N.
Definition isLowSurrogate (c : N) : bool := ((0xDC00 <=? c) && (c <=? 0xDFFF))%N.

(** [s.codePointAt(j)]; [None] is [undefined]. *)
Definition codePointAt (s : jsstring) (j : nat) : option N :=
  match s !! j with
  | None => None
  | Some first =>
      if isHighSurrogate first then
        match s !! S j with
        | Some second =>
            if isLowSurrogate second
            then Some ((first - 0xD800) * 0x400 + (second - 0xDC00) + 0x10000)%N
            else Some first
        | None => Some first
        end
      else Some first
  end.

Module UnicodeProcessor.

Record t : Type := { indexer : list Z }.

(** [codePoint < this.indexer.length ? this.indexer[codePoint] : -1]:
    the lookup answers exactly when the index is below the length. *)
Definition indexValue (p : t) (codePoint : N) : Z :=
  match indexer p !! N.to_nat codePoint with
  | Some v => v
  | None => (-1)%Z
  end.

(** The loop that fills one row of [textIds]. *)
Definition fillRow (p : t) (text : jsstring) (row : list Z) : list Z :=
  fold_left (fun row j =>
               match codePointAt text j with
               | None => row
               | Some codePoint => arraySet 0%Z j (indexValue p codePoint) row
               end)
            (seq 0 (length text)) row.

Definition getTextMask (textIdsLengths : list Z) : result (list (list (list Q))) :=
  let maxLen := mathMax textIdsLengths in
  lengthToMask textIdsLengths (Some maxLen).

(** [call(textList)]; [normalize] is [text.normalize("NFKC")], that is
    [preprocessText]. *)
Definition call (normalize : jsstring -> jsstring) (p : t) (textList : list jsstring)
    : result (list (list Z) * list (list (list Q))) :=
  let processedTexts := map normalize textList in
  let textIdsLengths := map (fun text => Z.of_nat (length text)) processedTexts in
  let maxLen := mathMax textIdsLengths in
  let? textIds :=
    mapR (fun text => let? row := newArray maxLen 0%Z in Ok (fillRow p text row))
         processedTexts in
  let? textMask := getTextMask textIdsLengths in
  Ok (textIds, textMask).

End UnicodeProcessor.

(* ===================================================================== *)
(** ** Tensors, sessions and the world *)
(* ===================================================================== *)

(** [new ort.Tensor(type, data, dims)]: the flat data and the shape.  The
    typed arrays the data go through ([Float32Array], [BigInt64Array])
    keep every value as it is, and the library's own check that data and
    shape agree is not part of the model. *)
Record Tensor (A : Type) : Type := mkTensor { tdata : list A; tdims : list Z }.
Arguments mkTensor {A} tdata tdims.
Arguments tdata {A} _.
Arguments tdims {A} _.

Record Style : Type := { ttl : Tensor Q; dp : Tensor Q }.

Inductive VoiceStyleId : Type := F1 | F2 | M1 | M2.

Definition VoiceStyleId_eqb (a b : VoiceStyleId) : bool :=
  match a, b with
  | F1, F1 | F2, F2 | M1, M1 | M2, M2 => true
  | _, _ => false
  end.

Record VoiceStyleTensorJson : Type :=
  { dims : Z * Z * Z; data : list (list (list Q)) }.

Record VoiceStyleJson : Type :=
  { style_ttl : VoiceStyleTensorJson; style_dp : VoiceStyleTensorJson }.

Record TtsConfig : Type :=
  { sample_rate : Z; base_chunk_size : Z; chunk_compress_factor : Z; latent_dim : Z }.

(** The inputs of one run of the vector estimator. *)
Record EstimatorFeeds : Type :=
  { noisy_latent : Tensor Q;
    text_emb : Tensor Q;
    est_style_ttl : Tensor Q;
    latent_mask : Tensor Q;
    est_text_mask : Tensor Q;
    current_step : Tensor Q;
    total_step : Tensor Q }.

(** One run of an inference session, with what it was fed. *)
Inductive Call : Type :=
| RunDurationPredictor (text_ids : Tensor Z) (style_dp text_mask : Tensor Q)
| RunTextEncoder (text_ids : Tensor Z) (style_ttl text_mask : Tensor Q)
| RunVectorEstimator (feeds : EstimatorFeeds)
| RunVocoder (latent : Tensor Q).


(** What the code reads and changes outside its arguments: the session
    runs made so far (oldest first), the number of values [Math.random]
    has handed out, and [globalStyleCache]. *)
Record World : Type :=
  { calls : list Call;
    draws : nat;
    globalStyleCache : VoiceStyleId -> option Style }.

(** What the surroundings provide: [String.prototype.normalize("NFKC")],
    the successive values of [Math.random()], the Box-Muller expression
    [sqrt(-2 ln u1) * cos(2 pi u2)] (not a rational function, so kept as a
    parameter), and the voice-style assets as [fetchJson] returns them. *)
Record Host : Type :=
  { normalizeNFKC : jsstring -> jsstring;
    randomValue : nat -> Q;
    boxMuller : Q -> Q -> Q;
    fetchVoiceStyle : VoiceStyleId -> VoiceStyleJson }.

(** Computations that read and change the world and may throw. *)
Definition M (A : Type) : Type := World -> result A * World.

Definition ret {A} (a : A) : M A := fun w => (Ok a, w).
Definition throw {A} (e : Exn) : M A := fun w => (Err e, w).
Definition bind {A B} (c : M A) (k : A -> M B) : M B :=
  fun w => match c w with
           | (Ok a, w') => k a w'
           | (Err e, w') => (Err e, w')
           end.
Definition lift {A} (r : result A) : M A := fun w => (r, w).

Notation "'let*' x ':=' c 'in' k" := (bind c (fun x => k))
  (at level 10, x pattern, c at level 100, k at level 200).

(** A [for] loop that carries a value from turn to turn. *)
Fixpoint foldM {A B} (f : A -> B -> M A) (l : list B) (a : A) : M A :=
  match l with
  | [] => ret a
  | x :: l' => let* a' := f a x in foldM f l' a'
  end.

(** A counting loop that pushes one result per turn. *)
Fixpoint timesM {A} (n : nat) (c : M A) : M (list A) :=
  match n with
  | O => ret []
  | S n' => let* x := c in let* xs := timesM n' c in ret (x :: xs)
  end.

Definition record (c : Call) : M unit :=
  fun w => (Ok tt, {| calls := calls w ++ [c]; draws := draws w;
                      globalStyleCache := globalStyleCache w |}).

(** [Math.random()] *)
Definition mathRandom (host : Host) : M Q :=
  fun w => (Ok (randomValue host (draws w)),
            {| calls := calls w; draws := S (draws w);
               globalStyleCache := globalStyleCache w |}).

(** [Math.max(...duration)], for a list that is not empty. *)
Definition maxFrom (d : Q) (l : list Q) : Q := fold_left Qmax l d.

(** [wav.slice(0, end)]: a negative [end] counts from the end. *)
Definition sliceTo {A} (l : list A) (e : Z) : list A :=
  if (e <? 0)%Z then take (Z.to_nat (Z.max (Z.of_nat (length l) + e) 0)) l
  else take (Z.to_nat e) l.

Module TextToSpeech.

(** The four sessions are the functions their [run] computes; a run that
    rejects is outside the model. *)
Record t : Type :=
  { cfgs : TtsConfig;
    textProcessor : UnicodeProcessor.t;
    dpOrt : Tensor Z -> Tensor Q -> Tensor Q -> list Q;
    textEncOrt : Tensor Z -> Tensor Q -> Tensor Q -> Tensor Q;
    vectorEstOrt : EstimatorFeeds -> list Q;
    vocoderOrt : Tensor Q -> list Q }.

Definition sampleRate (tts : t) : Z := sample_rate (cfgs tts).

(** One cell of the noise tensor. *)
Definition gaussianCell (host : Host) : M Q :=
  let* r1 := mathRandom host in
  let u1 := Qmax (1 # 10000) r1 in
  let* u2 := mathRandom host in
  ret (boxMuller host u1 u2).

(** The shape the code reads off a nested array:
    [[bsz, xt[0]?.length ?? 0, xt[0]?.[0]?.length ?? 0]]. *)
Definition shapeOf (bsz : nat) (xt : list (list (list Q))) : list Z :=
  [Z.of_nat bsz;
   Z.of_nat (length (firstOr [] xt));
   Z.of_nat (length (firstOr [] (firstOr [] xt)))].

(** [xt[b][d][t] *= latentMask[b][0]?.[t] ?? 0] over all cells. *)
Definition applyMask (xt latentMask : list (list (list Q))) : list (list (list Q)) :=
  imap (fun b batch =>
          map (fun row =>
                 imap (fun t v =>
                         (v * match firstOr [] (nth b latentMask []) !! t with
                              | Some m => m
                              | None => 0
                              end)%Q)
                      row)
              batch)
       xt.

(** [sampleNoisyLatent].  With no duration every loop is empty and the
    two arrays are; otherwise a zero chunk size makes the latent length
    infinite or NaN. *)
Definition sampleNoisyLatent (host : Host) (duration : list Q)
    (sampleRate baseChunkSize chunkCompress latentDim : Z)
    : M (list (list (list Q)) * list (list (list Q))) :=
  match duration with
  | [] => ret ([], [])
  | d0 :: ds =>
      let bsz := length duration in
      let maxDur := maxFrom d0 ds in
      let wavLenMax := Qfloor (maxDur * inject_Z sampleRate) in
      let wavLengths := map (fun d => Qfloor (d * inject_Z sampleRate)) duration in
      let chunkSize := (baseChunkSize * chunkCompress)%Z in
      if (chunkSize =? 0)%Z then throw NonFinite
      else
        let latentLen := ((wavLenMax + chunkSize - 1) / chunkSize)%Z in
        let latentDimVal := (latentDim * chunkCompress)%Z in
        let* xt := timesM bsz
                (timesM (Z.to_nat latentDimVal)
                   (timesM (Z.to_nat latentLen) (gaussianCell host))) in
        let latentLengths :=
          map (fun len => ((len + chunkSize - 1) / chunkSize)%Z) wavLengths in
        let* latentMask := lift (lengthToMask latentLengths (Some (Int latentLen))) in
        ret (applyMask xt latentMask, latentMask)
  end.

(** [duration[i] /= speed]: dividing by zero leaves no finite number. *)
Definition scaleDuration (speed : Q) (duration : list Q) : option (list Q) :=
  match duration with
  | [] => Some []
  | _ => if Qeq_bool speed 0 then None else Some (map (fun d => d / speed)%Q duration)
  end.

(** The array the loop body rebuilds from [denoised_latent.data]: [idx]
    advances by one per cell, so at cell [(b, d, t)] it is
    [(b * latentDim + d) * latentLen + t]; a missing value reads as 0. *)
Definition reshape (bsz latentDim latentLen : nat) (denoisedData : list Q)
    : list (list (list Q)) :=
  map (fun b =>
         map (fun d =>
                map (fun t =>
                       match denoisedData !! ((b * latentDim + d) * latentLen + t)%nat with
                       | Some v => v
                       | None => 0%Q
                       end)
                    (seq 0 latentLen))
             (seq 0 latentDim))
      (seq 0 bsz).

(** The tensors of one [infer] that stay the same over the denoising loop. *)
Record LoopFeeds : Type :=
  { lf_text_emb : Tensor Q; lf_style_ttl : Tensor Q; lf_latent_mask : Tensor Q;
    lf_text_mask : Tensor Q; lf_total_step : Tensor Q }.

(** [new Float32Array(bsz).fill(v)] as a tensor of shape [[bsz]]. *)
Definition filledTensor (bsz : nat) (v : Z) : Tensor Q :=
  mkTensor (replicate bsz (inject_Z v)) [Z.of_nat bsz].

(** The tensor made of a nested array: [xt.flat(2)] with the shape read
    off it. *)
Definition latentTensor (bsz : nat) (xt : list (list (list Q))) : Tensor Q :=
  mkTensor (concat (concat xt)) (shapeOf bsz xt).

(** What one turn of the denoising loop feeds the vector estimator. *)
Definition estimatorFeeds (bsz : nat) (lf : LoopFeeds) (xt : list (list (list Q)))
    (step : nat) : EstimatorFeeds :=
  {| noisy_latent := latentTensor bsz xt; text_emb := lf_text_emb lf;
     est_style_ttl := lf_style_ttl lf; latent_mask := lf_latent_mask lf;
     est_text_mask := lf_text_mask lf;
     current_step := filledTensor bsz (Z.of_nat step);
     total_step := lf_total_step lf |}.

(** One turn of the denoising loop. *)
Definition denoiseStep (tts : t) (bsz : nat) (lf : LoopFeeds)
    (xt : list (list (list Q))) (step : nat) : M (list (list (list Q))) :=
  let feeds := estimatorFeeds bsz lf xt step in
  let* _ := record (RunVectorEstimator feeds) in
  let denoisedData := vectorEstOrt tts feeds in
  let latentDim := length (firstOr [] xt) in
  let latentLen := length (firstOr [] (firstOr [] xt)) in
  ret (reshape bsz latentDim latentLen denoisedData).

(** The two text tensors of [infer]. *)
Definition textTensors (host : Host) (tts : t) (textList : list jsstring)
    : result (Tensor Z * Tensor Q) :=
  let bsz := length textList in
  let? (textIds, textMask) :=
    UnicodeProcessor.call (normalizeNFKC host) (textProcessor tts) textList in
  let textIdsTensor :=
    mkTensor (concat textIds) [Z.of_nat bsz; Z.of_nat (length (firstOr [] textIds))] in
  let textMaskTensor :=
    mkTensor (concat (concat textMask))
             [Z.of_nat bsz; 1%Z;
              Z.of_nat (length (firstOr [] (firstOr [] textMask)))] in
  Ok (textIdsTensor, textMaskTensor).

(** What [infer] has in hand when the denoising loop starts. *)
Record Prepared : Type :=
  { p_text_mask : Tensor Q;
    p_text_emb : Tensor Q;
    p_duration : list Q;
    p_xt : list (list (list Q));
    p_latent_mask : Tensor Q }.

(** [infer] up to the denoising loop: the text tensors, the duration
    predictor, the speed scaling, the text encoder, the latent sampler. *)
Definition prepare (host : Host) (tts : t) (textList : list jsstring) (style : Style)
    (speed : Q) : M Prepared :=
  let bsz := length textList in
  let* (textIdsTensor, textMaskTensor) := lift (textTensors host tts textList) in
  let* _ := record (RunDurationPredictor textIdsTensor (dp style) textMaskTensor) in
  let scaled := scaleDuration speed (dpOrt tts textIdsTensor (dp style) textMaskTensor) in
  let* _ := record (RunTextEncoder textIdsTensor (ttl style) textMaskTensor) in
  let textEmb := textEncOrt tts textIdsTensor (ttl style) textMaskTensor in
  let* duration := match scaled with Some d => ret d | None => throw NonFinite end in
  let* (xt, latentMask) :=
    sampleNoisyLatent host duration (sampleRate tts) (base_chunk_size (cfgs tts))
                      (chunk_compress_factor (cfgs tts)) (latent_dim (cfgs tts)) in
  let latentMaskTensor :=
    mkTensor (concat (concat latentMask))
             [Z.of_nat bsz; 1%Z;
              Z.of_nat (length (firstOr [] (firstOr [] latentMask)))] in
  ret {| p_text_mask := textMaskTensor; p_text_emb := textEmb;
         p_duration := duration; p_xt := xt; p_latent_mask := latentMaskTensor |}.

Definition loopFeeds (bsz : nat) (style : Style) (totalStep : Z) (p : Prepared)
    : LoopFeeds :=
  {| lf_text_emb := p_text_emb p; lf_style_ttl := ttl style;
     lf_latent_mask := p_latent_mask p; lf_text_mask := p_text_mask p;
     lf_total_step := filledTensor bsz totalStep |}.

(** [infer(textList, style, totalStep, speed)]; the step count is an
    integer. *)
Definition infer (host : Host) (tts : t) (textList : list jsstring) (style : Style)
    (totalStep : Z) (speed : Q) : M (list Q * list Q) :=
  let bsz := length textList in
  let* p := prepare host tts textList style speed in
  let lf := loopFeeds bsz style totalStep p in
  let* xt := foldM (denoiseStep tts bsz lf) (seq 0 (Z.to_nat totalStep)) (p_xt p) in
  let finalXtTensor := latentTensor bsz xt in
  let* _ := record (RunVocoder finalXtTensor) in
  ret (vocoderOrt tts finalXtTensor, p_duration p).

Definition singleSpeakerMessage : string :=
  "Single speaker text to speech only supports single style".

(** One turn of the loop of [call]; the state is [(wavCat, durCat)]. *)
Definition appendChunk (host : Host) (tts : t) (style : Style) (totalStep : Z)
    (speed silenceDuration : Q) (st : list Q * Q) (chunk : jsstring) : M (list Q * Q) :=
  let '(wavCat, durCat) := st in
  let* (wav, duration) := infer host tts [chunk] style totalStep speed in
  if isEmpty wavCat then ret (wav, firstOr 0%Q duration)
  else
    let silenceLen := Qfloor (silenceDuration * inject_Z (sampleRate tts)) in
    let* silence := lift (newArray (Int silenceLen) 0%Q) in
    ret (wavCat ++ silence ++ wav,
         (durCat + (firstOr 0 duration + silenceDuration))%Q).

(** [call(text, style, totalStep, speed, silenceDuration)] *)
Definition call (host : Host) (tts : t) (text : jsstring) (style : Style)
    (totalStep : Z) (speed silenceDuration : Q) : M (list Q * list Q) :=
  match tdims (ttl style) with
  | 1%Z :: _ =>
      let textList := chunkText text None in
      let* (wavCat, durCat) :=
        foldM (appendChunk host tts style totalStep speed silenceDuration)
              textList ([], 0%Q) in
      ret (wavCat, [durCat])
  | _ => throw (Error singleSpeakerMessage)
  end.

End TextToSpeech.

(* ===================================================================== *)
(** ** Voice style store *)
(* ===================================================================== *)

(** [new Float32Array(n)] *)
Definition newFloat32Array (n : Z) : result (list Q) :=
  if (0 <=? n)%Z then Ok (replicate (Z.to_nat n) 0%Q) else Err RangeError.

(** [target.set(source)]: a RangeError when the source is longer. *)
Definition typedArraySet (source target : list Q) : result (list Q) :=
  if (length source <=? length target)%nat
  then Ok (source ++ drop (length source) target)
  else Err RangeError.

Definition setStyleCache (id : VoiceStyleId) (style : Style) : M unit :=
  fun w => (Ok tt,
            {| calls := calls w; draws := draws w;
               globalStyleCache :=
                 fun k => if VoiceStyleId_eqb k id then Some style
                          else globalStyleCache w k |}).

Definition getStyleCache (id : VoiceStyleId) : M (option Style) :=
  fun w => (Ok (globalStyleCache w id), w).

(** [loadVoiceStyle(id)] *)
Definition loadVoiceStyle (host : Host) (id : VoiceStyleId) : M Style :=
  let* cached := getStyleCache id in
  match cached with
  | Some style => ret style
  | None =>
      let voiceStyle := fetchVoiceStyle host id in
      let '(_, ttlDim1, ttlDim2) := dims (style_ttl voiceStyle) in
      let '(_, dpDim1, dpDim2) := dims (style_dp voiceStyle) in
      let* ttlFlat := lift (newFloat32Array (ttlDim1 * ttlDim2)) in
      let* dpFlat := lift (newFloat32Array (dpDim1 * dpDim2)) in
      let ttlData := concat (concat (data (style_ttl voiceStyle))) in
      let* ttlFlat := lift (typedArraySet ttlData ttlFlat) in
      let dpData := concat (concat (data (style_dp voiceStyle))) in
      let* dpFlat := lift (typedArraySet dpData dpFlat) in
      let ttlTensor := mkTensor ttlFlat [1; ttlDim1; ttlDim2]%Z in
      let dpTensor := mkTensor dpFlat [1; dpDim1; dpDim2]%Z in
      let style := {| ttl := ttlTensor; dp := dpTensor |} in
      let* _ := setStyleCache id style in
      ret style
  end.

(* ===================================================================== *)
(** ** WAV encoder *)
(* ===================================================================== *)

(** The [n] low bytes of [v], least significant first: what
    [DataView.setUint8/16/32] and [setInt16] store with
    [littleEndian = true] (the value is taken modulo [2^(8n)]). *)
Definition leBytes (n : nat) (v : Z) : list Z :=
  map (fun i => ((v / 2 ^ (8 * Z.of_nat i)) mod 256)%Z) (seq 0 n).

Fixpoint storeAt (offset : nat) (bytes buffer : list Z) : list Z :=
  match bytes with
  | [] => buffer
  | x :: bytes' => storeAt (S offset) bytes' (<[offset := x]> buffer)
  end.

(** A [DataView] store: a RangeError when it does not fit the buffer. *)
Definition setBytes (offset : nat) (bytes buffer : list Z) : result (list Z) :=
  if (offset + length bytes <=? length buffer)%nat
  then Ok (storeAt offset bytes buffer)
  else Err RangeError.

Definition setUint8 (offset : nat) (v : Z) := setBytes offset (leBytes 1 v).
Definition setUint16 (offset : nat) (v : Z) := setBytes offset (leBytes 2 v).
Definition setInt16 (offset : nat) (v : Z) := setBytes offset (leBytes 2 v).
Definition setUint32 (offset : nat) (v : Z) := setBytes offset (leBytes 4 v).

(** The local [writeString(view, offset, string)]: one [setUint8] per
    unit, at [offset], [offset + 1], ... *)
Fixpoint writeString (offset : nat) (s : jsstring) (buffer : list Z) : result (list Z) :=
  match s with
  | [] => Ok buffer
  | c :: s' =>
      let? buffer' := setUint8 offset (Z.of_N c) buffer in
      writeString (S offset) s' buffer'
  end.

(** [Math.floor(Math.max(-1, Math.min(1, s)) * 32767)] *)
Definition intSample (s : Q) : Z := Qfloor (Qmax (-1) (Qmin 1 s) * 32767).

(** The sample loop of [writeWavToBuffer], from index [i] on. *)
Fixpoint writeSamples (i : nat) (audioData : list Q) (buffer : list Z) : result (list Z) :=
  match audioData with
  | [] => Ok buffer
  | s :: audioData' =>
      let? buffer' := setInt16 (44 + i * 2) (intSample s) buffer in
      writeSamples (S i) audioData' buffer'
  end.

(** [writeWavToBuffer(audioData, sampleRate)]; the result is the content
    of the [ArrayBuffer], one integer in [0, 255] per byte. *)
Definition writeWavToBuffer (audioData : list Q) (sampleRate : Z) : result (list Z) :=
  let numChannels := 1%Z in
  let bitsPerSample := 16%Z in
  let byteRate := (sampleRate * numChannels * bitsPerSample / 8)%Z in
  let blockAlign := (numChannels * bitsPerSample / 8)%Z in
  let dataSize := (Z.of_nat (length audioData) * bitsPerSample / 8)%Z in
  let buffer := replicate (Z.to_nat (44 + dataSize)) 0%Z in
  let? buffer := writeString 0 (js "RIFF") buffer in
  let? buffer := setUint32 4 (36 + dataSize) buffer in
  let? buffer := writeString 8 (js "WAVE") buffer in
  let? buffer := writeString 12 (js "fmt ") buffer in
  let? buffer := setUint32 16 16 buffer in
  let? buffer := setUint16 20 1 buffer in
  let? buffer := setUint16 22 numChannels buffer in
  let? buffer := setUint32 24 sampleRate buffer in
  let? buffer := setUint32 28 byteRate buffer in
  let? buffer := setUint16 32 blockAlign buffer in
  let? buffer := setUint16 34 bitsPerSample buffer in
  let? buffer := writeString 36 (js "data") buffer in
  let? buffer := setUint32 40 dataSize buffer in
  writeSamples 0 audioData buffer.

(* ===================================================================== *)
(** ** Synthesis facade *)
(* ===================================================================== *)

Record SynthesizeOptions : Type :=
  { text : jsstring;
    voiceStyle : VoiceStyleId;
    totalStep : Z;
    speed : Q;
    silenceDurationSeconds : option Q }.

Record SynthesisResult : Type :=
  { wavBuffer : list Z; resultSampleRate : Z; durationSeconds : Q }.

(** [synthesize(options)], once the sessions are loaded: [textToSpeech] is
    the instance that [globalTextToSpeech] holds. *)
Definition synthesize (host : Host) (textToSpeech : TextToSpeech.t)
    (options : SynthesizeOptions) : M SynthesisResult :=
  let silenceDuration :=
    match silenceDurationSeconds options with Some s => s | None => 3 # 10 end in
  let* style := loadVoiceStyle host (voiceStyle options) in
  let* (wav, duration) :=
    TextToSpeech.call host textToSpeech (text options) style (totalStep options)
                      (speed options) silenceDuration in
  let effectiveDuration := firstOr 0%Q duration in
  let wavLen :=
    Qfloor (inject_Z (TextToSpeech.sampleRate textToSpeech) * effectiveDuration) in
  let wavOut := sliceTo wav wavLen in
  let* wavBuffer := lift (writeWavToBuffer wavOut (TextToSpeech.sampleRate textToSpeech)) in
  ret {| wavBuffer := wavBuffer;
         resultSampleRate := TextToSpeech.sampleRate textToSpeech;
         durationSeconds := effectiveDuration |}.

(* ===================================================================== *)
(** ** The specification's own wording, for comparison *)
(* ===================================================================== *)


(** A row of a mask: [ones] leading 1.0, then 0.0 up to [len]. *)
Definition maskRow (ones len : nat) : list Q :=
  replicate ones 1%Q ++ replicate (len - ones) 0%Q.

(** Section 4.8 of the specification: the 44-byte header. *)
Definition wavHeader (sampleRate : Z) (nSamples : nat) : list Z :=
  let dataSize := (2 * Z.of_nat nSamples)%Z in
  map Z.of_N (js "RIFF") ++ leBytes 4 (36 + dataSize)
  ++ map Z.of_N (js "WAVE")
  ++ map Z.of_N (js "fmt ") ++ leBytes 4 16 ++ leBytes 2 1 ++ leBytes 2 1
  ++ leBytes 4 sampleRate ++ leBytes 4 (sampleRate * 1 * 16 / 8)
  ++ leBytes 2 (1 * 16 / 8) ++ leBytes 2 16
  ++ map Z.of_N (js "data") ++ leBytes 4 dataSize.


(** A blank-line separator occurs in [s]: the paragraph expression matches
    at some position. *)
Fixpoint containsParagraphSep (s : jsstring) : bool :=
  match s with
  | [] => false
  | c :: s' =>
      match matchParagraphSep [] s with
      | Some _ => true
      | None => containsParagraphSep s'
      end
  end.

(** Wherever the sentence expression matches in [before ++ rest] at a
    position of [rest], it matches exactly one space. *)
Fixpoint singleSpaceBoundaries (before rest : jsstring) : bool :=
  match rest with
  | [] => true
  | c :: rest' =>
      match matchSentenceSep before rest with
      | Some (S k) => (k =? 0)%nat && (c =? 32)%N
      | _ => true
      end
      && singleSpaceBoundaries (c :: before) rest'
  end.

(** The sentences put together again with one space between them. *)
Definition joinWithSpaces (pieces : list jsstring) : jsstring :=
  match pieces with
  | [] => []
  | p :: ps => p ++ concat (map (app space) ps)
  end.

(** The list is empty or starts with an element that [f] rejects. *)
Definition headRejected {A} (f : A -> bool) (l : list A) : Prop :=
  match l with
  | [] => True
  | x :: _ => f x = false
  end.

(** The text ends with one of the listed abbreviations. *)
Definition endsWithAbbreviation (s : jsstring) : Prop :=
  exists u abbr, In abbr abbreviations /\ s = u ++ abbr.

(** The text ends with an initial: one upper-case letter and a period, the
    letter being the first unit of the text or following a unit that is
    not a word character. *)
Definition endsWithInitial (s : jsstring) : Prop :=
  exists u letter,
    isUpper letter = true /\ s = u ++ [letter; 46%N]
    /\ match rev u with
       | [] => True
       | p :: _ => isWordChar p = false
       end.

(** The token the indexer puts at position [j] of a row. *)
Definition tokenAt (p : UnicodeProcessor.t) (text : jsstring) (j : nat) : Z :=
  match codePointAt text j with
  | Some codePoint => UnicodeProcessor.indexValue p codePoint
  | None => 0%Z
  end.

(** One token per UTF-16 code unit of the text. *)
Definition tokensPerUnit (p : UnicodeProcessor.t) (text : jsstring) : list Z :=
  map (tokenAt p text) (seq 0 (length text)).


(** The number of latent frames for [wavLength] samples, as the code
    computes it: [Math.floor((len + chunkSize - 1) / chunkSize)]. *)
Definition latentLength (wavLength chunkSize : Z) : Z :=
  ((wavLength + chunkSize - 1) / chunkSize)%Z.



(** The world after [n] more calls of [Math.random]. *)
Definition bumpDraws (n : nat) (w : World) : World :=
  {| calls := calls w; draws := draws w + n; globalStyleCache := globalStyleCache w |}.

(** A computation that never throws and only draws random numbers, and
    whose result satisfies [P]. *)
Definition draws_only {A} (P : A -> Prop) (c : M A) : Prop :=
  forall w, exists a n, c w = (Ok a, bumpDraws n w) /\ P a.

(** The world a run starts from in the examples: nothing called, nothing
    drawn, nothing cached. *)
Definition emptyWorld : World :=
  {| calls := []; draws := 0; globalStyleCache := fun _ => None |}.

Definition exampleStyleJson : VoiceStyleJson :=
  {| style_ttl := {| dims := (1, 1, 2)%Z; data := [[[1; 2]%Q]] |};
     style_dp := {| dims := (1, 1, 1)%Z; data := [[[3%Q]]] |} |}.

(** A host for the examples: the texts used are already in NFKC; every
    random draw is 1/2 and every noise cell is 1. *)
Definition exampleHost : Host :=
  {| normalizeNFKC := fun s => s;
     randomValue := fun _ => 1 # 2;
     boxMuller := fun _ _ => 1%Q;
     fetchVoiceStyle := fun _ => exampleStyleJson |}.

(** The world after the session runs [cs], in that order. *)
Definition addCalls (cs : list Call) (w : World) : World :=
  {| calls := calls w ++ cs; draws := draws w; globalStyleCache := globalStyleCache w |}.

(** The latent one turn of the denoising loop leaves. *)
Definition nextLatent (tts : TextToSpeech.t) (bsz : nat) (lf : TextToSpeech.LoopFeeds)
    (xt : list (list (list Q))) (step : nat) : list (list (list Q)) :=
  TextToSpeech.reshape bsz (length (firstOr [] xt)) (length (firstOr [] (firstOr [] xt)))
    (TextToSpeech.vectorEstOrt tts (TextToSpeech.estimatorFeeds bsz lf xt step)).

(** What the vector estimator is fed, turn by turn, from the latent [xt] on. *)
Fixpoint feedsOfLoop (tts : TextToSpeech.t) (bsz : nat) (lf : TextToSpeech.LoopFeeds)
    (steps : list nat) (xt : list (list (list Q))) : list EstimatorFeeds :=
  match steps with
  | [] => []
  | step :: steps' =>
      TextToSpeech.estimatorFeeds bsz lf xt step
      :: feedsOfLoop tts bsz lf steps' (nextLatent tts bsz lf xt step)
  end.

(** Every cached style is one that [loadVoiceStyle] built: its [style_ttl]
    tensor has a leading dimension of 1. *)
Definition singleStyleCache (w : World) : Prop :=
  forall id style,
    globalStyleCache w id = Some style ->
    exists d1 d2, tdims (ttl style) = [1; d1; d2]%Z.





(** Sessions for the examples: 1/40 s of speech per text unit, an
    estimator that returns the latent it is given, a vocoder that returns
    one sample per latent cell; 10 samples per second, 4 per chunk. *)
Definition exampleTts : TextToSpeech.t :=
  {| TextToSpeech.cfgs :=
       {| sample_rate := 10; base_chunk_size := 4; chunk_compress_factor := 1;
          latent_dim := 1 |};
     TextToSpeech.textProcessor := {| UnicodeProcessor.indexer := [] |};
     TextToSpeech.dpOrt :=
       fun text_ids _ _ => [Qred (inject_Z (Z.of_nat (length (tdata text_ids))) / 40)];
     TextToSpeech.textEncOrt := fun _ _ _ => mkTensor [] [];
     TextToSpeech.vectorEstOrt := fun feeds => tdata (noisy_latent feeds);
     TextToSpeech.vocoderOrt := fun latent => tdata latent |}.

Definition exampleStyle : Style :=
  {| ttl := mkTensor [1; 2]%Q [1; 1; 2]%Z; dp := mkTensor [3%Q] [1; 1; 1]%Z |}.

Definition twoSpeakerStyle : Style :=
  {| ttl := mkTensor [1; 2; 3; 4]%Q [2; 1; 2]%Z; dp := mkTensor [3%Q] [1; 1; 1]%Z |}.


(** ["Hello there."], a blank line, ["Hello there."] *)
Definition twoLongParagraphs : jsstring :=
  js "Hello there." ++ [10; 10]%N ++ js "Hello there.".

(** The feeds of the vector-estimator runs among [cs], in order. *)
Definition estimatorRuns (cs : list Call) : list EstimatorFeeds :=
  flat_map (fun c => match c with RunVectorEstimator feeds => [feeds] | _ => [] end) cs.

(* ===================================================================== *)
(** ** Vocabulary of the further properties *)
(* ===================================================================== *)

(** The units of a text that are not white space, in order. *)
Definition nonSpace (s : jsstring) : jsstring :=
  List.filter (fun c => negb (isWhiteSpace c)) s.

(** A regular expression whose matches hold white space only. *)
Definition consumesWhiteSpace (m : matcher) : Prop :=
  forall before rest n,
    m before rest = Some n -> (n <= length (takeWhile isWhiteSpace rest))%nat.

(** A piece that is empty or holds a unit that is not white space. *)
Definition notBlank (s : jsstring) : Prop := s = [] \/ nonSpace s <> [].

(** A chunk as [chunkText] pushes it: not empty, and without white space at
    either end. *)
Definition tidy (c : jsstring) : Prop := c <> [] /\ trim c = c.

(** What the inner loop of [chunkText] keeps about [currentChunk]: it is
    empty, within the limit, or one sentence by itself. *)
Definition fitsCur (maxLen : Z) (sentences : list jsstring) (cur : jsstring) : Prop :=
  cur = [] \/ (Z.of_nat (length cur) <= maxLen)%Z \/ In cur sentences.

(** A chunk within the limit, or one sentence by itself. *)
Definition withinOrSentence (maxLen : Z) (text c : jsstring) : Prop :=
  (Z.of_nat (length c) <= maxLen)%Z
  \/ exists p s,
       In p (split matchParagraphSep (trim text))
       /\ In s (split matchSentenceSep (trim p))
       /\ c = trim s.



(** [data[i] ?? 0] *)
Definition valueAt (data : list Q) (i : nat) : Q :=
  match data !! i with
  | Some v => v
  | None => 0%Q
  end.

(** The two session runs every [prepare] that gets past the text tensors
    makes. *)
Definition textRuns (style : Style) (idsT : Tensor Z) (maskT : Tensor Q) : list Call :=
  [RunDurationPredictor idsT (dp style) maskT; RunTextEncoder idsT (ttl style) maskT].

(** The data of a tensor are as many as its shape says: what
    [new ort.Tensor(type, data, dims)] checks. *)
Definition wellShaped {A} (t : Tensor A) : Prop :=
  Z.of_nat (length (tdata t)) = fold_right Z.mul 1%Z (tdims t).

(** The tensors that [infer] builds for one session run are well shaped;
    the style tensors and the text embedding come from outside. *)
Definition wellShapedCall (c : Call) : Prop :=
  match c with
  | RunDurationPredictor text_ids _ text_mask
  | RunTextEncoder text_ids _ text_mask => wellShaped text_ids /\ wellShaped text_mask
  | RunVectorEstimator feeds =>
      wellShaped (noisy_latent feeds) /\ wellShaped (latent_mask feeds)
      /\ wellShaped (est_text_mask feeds) /\ wellShaped (current_step feeds)
      /\ wellShaped (total_step feeds)
  | RunVocoder latent => wellShaped latent
  end.

(** A nested array of [bsz] items of [dimVal] rows of [len] cells. *)
Definition regular {A} (bsz dimVal len : nat) (xt : list (list (list A))) : Prop :=
  length xt = bsz
  /\ Forall (fun batch => length batch = dimVal
                          /\ Forall (fun row => length row = len) batch) xt.





(** The flattened data of the tensor are not more than [dims[1] * dims[2]]. *)
Definition fitsDims (t : VoiceStyleTensorJson) : Prop :=
  let '(_, dim1, dim2) := dims t in
  (Z.of_nat (length (concat (concat (data t)))) <= dim1 * dim2)%Z.

(** The world with one more cached style. *)
Definition cacheStyle (id : VoiceStyleId) (style : Style) (w : World) : World :=
  {| calls := calls w; draws := draws w;
     globalStyleCache :=
       fun k => if VoiceStyleId_eqb k id then Some style else globalStyleCache w k |}.

(** An asset whose [style_ttl] holds three values under the shape
    [[1, 1, 2]]. *)
Definition overfullStyleJson : VoiceStyleJson :=
  {| style_ttl := {| dims := (1, 1, 2)%Z; data := [[[1; 2; 3]%Q]] |};
     style_dp := {| dims := (1, 1, 1)%Z; data := [[[3%Q]]] |} |}.

(** The example host with that asset for every voice. *)
Definition overfullHost : Host :=
  {| normalizeNFKC := fun s => s;
     randomValue := fun _ => 1 # 2;
     boxMuller := fun _ _ => 1%Q;
     fetchVoiceStyle := fun _ => overfullStyleJson |}.

(* ===================================================================== *)
(** * Proofs *)
(* ===================================================================== *)

(** ** Trimming *)

Section DropWhile.
Context {A : Type} (f : A -> bool).

Lemma dropWhile_headRejected l : headRejected f (dropWhile f l).
Proof.
  induction l as [|x l IH]; simpl; [exact I|].
  destruct (f x) eqn:E; [exact IH | exact E].
Qed.

Lemma dropWhile_fixed l : headRejected f l -> dropWhile f l = l.
Proof. destruct l as [|x l]; simpl; [reflexivity|]. now intros ->. Qed.

Lemma dropWhile_split l : exists w, l = w ++ dropWhile f l /\ forallb f w = true.
Proof.
  induction l as [|x l (w & Hw & Hf)]; simpl.
  - now exists [].
  - destruct (f x) eqn:E.
    + exists (x :: w). simpl. rewrite E, Hf. split; [now f_equal | reflexivity].
    + now exists [].
Qed.

Lemma dropWhile_all l : forallb f l = true -> dropWhile f l = [].
Proof.
  induction l as [|x l IH]; simpl; [reflexivity|].
  destruct (f x); simpl; [exact IH | discriminate].
Qed.

Lemma headRejected_app_l l l' : l <> [] -> headRejected f (l ++ l') -> headRejected f l.
Proof. destruct l; [congruence | auto]. Qed.
End DropWhile.

(** [trim s] sits inside [s] between two runs of white space, and starts
    and ends with a unit that is not white space (or is empty). *)
Lemma trim_split s :
  exists a b, s = a ++ trim s ++ b
              /\ headRejected isWhiteSpace (trim s)
              /\ headRejected isWhiteSpace (rev (trim s)).
Proof.
  unfold trim.
  destruct (dropWhile_split isWhiteSpace s) as (a & Ha & _).
  set (u := dropWhile isWhiteSpace s) in *.
  destruct (dropWhile_split isWhiteSpace (rev u)) as (b & Hb & _).
  set (v := dropWhile isWhiteSpace (rev u)) in *.
  assert (Hu : u = rev v ++ rev b).
  { rewrite <- rev_app_distr, <- Hb. now rewrite rev_involutive. }
  exists a, (rev b). split; [now rewrite <- Hu|]. split.
  - destruct (rev v) as [|x r] eqn:E; [exact I|].
    assert (H := dropWhile_headRejected isWhiteSpace s). fold u in H.
    rewrite Hu in H. exact H.
  - rewrite rev_involutive. apply dropWhile_headRejected.
Qed.

Lemma trim_fixed t :
  headRejected isWhiteSpace t -> headRejected isWhiteSpace (rev t) -> trim t = t.
Proof.
  intros H1 H2. unfold trim.
  rewrite (dropWhile_fixed _ t H1), (dropWhile_fixed _ (rev t) H2).
  apply rev_involutive.
Qed.

Lemma trim_idempotent s : trim (trim s) = trim s.
Proof. destruct (trim_split s) as (a & b & _ & H1 & H2). now apply trim_fixed. Qed.

Lemma trim_whitespace_only s : forallb isWhiteSpace s = true -> trim s = [].
Proof. intros H. unfold trim. now rewrite (dropWhile_all _ _ H). Qed.

Lemma trim_length s : (length (trim s) <= length s)%nat.
Proof.
  destruct (trim_split s) as (a & b & E & _).
  rewrite E at 2. rewrite !length_app. lia.
Qed.

(** ** Splitting *)

Lemma splitFrom_no_match (m : matcher) rest : forall before piece,
  (forall a b, rest = a ++ b -> m (rev a ++ before) b = None) ->
  splitFrom m before piece 0 rest = [rev piece ++ rest].
Proof.
  induction rest as [|c rest IH]; intros before piece H; simpl.
  - now rewrite app_nil_r.
  - pose proof (H [] (c :: rest) eq_refl) as H0. simpl in H0. rewrite H0.
    rewrite IH.
    + simpl. now rewrite <- app_assoc.
    + intros a b ->. specialize (H (c :: a) b eq_refl).
      simpl in H. now rewrite <- app_assoc in H.
Qed.

Lemma lastNewlineEnd_app w b :
  lastNewlineEnd w <> None -> lastNewlineEnd (w ++ b) <> None.
Proof.
  induction w as [|c w IH]; simpl; [congruence|].
  destruct (isWhiteSpace c); [|congruence].
  destruct (lastNewlineEnd w) eqn:E.
  - destruct (lastNewlineEnd (w ++ b)); [congruence | now elim IH].
  - destruct (c =? 10)%N; [|congruence].
    destruct (lastNewlineEnd (w ++ b)); congruence.
Qed.

Lemma matchParagraphSep_app x r b :
  matchParagraphSep x r <> None -> matchParagraphSep x (r ++ b) <> None.
Proof.
  destruct r as [|c r]; simpl; [congruence|].
  destruct (c =? 10)%N; [|congruence].
  intros H. assert (H' : lastNewlineEnd r <> None).
  { destruct (lastNewlineEnd r); [congruence | now elim H]. }
  apply (lastNewlineEnd_app r b) in H'.
  destruct (lastNewlineEnd (r ++ b)); simpl; congruence.
Qed.

Lemma containsParagraphSep_suffix a b :
  containsParagraphSep (a ++ b) = false -> containsParagraphSep b = false.
Proof.
  induction a as [|c a IH]; [trivial|].
  cbn [app containsParagraphSep].
  destruct (matchParagraphSep [] (c :: a ++ b)); [discriminate | exact IH].
Qed.

Lemma containsParagraphSep_prefix t b :
  containsParagraphSep (t ++ b) = false -> containsParagraphSep t = false.
Proof.
  induction t as [|c t IH]; [trivial|].
  cbn [app containsParagraphSep].
  destruct (matchParagraphSep [] (c :: t ++ b)) eqn:E; [discriminate|].
  intros H. destruct (matchParagraphSep [] (c :: t)) eqn:E'; [|auto].
  exfalso. apply (matchParagraphSep_app [] (c :: t) b); [congruence | exact E].
Qed.

Lemma containsParagraphSep_trim s :
  containsParagraphSep s = false -> containsParagraphSep (trim s) = false.
Proof.
  destruct (trim_split s) as (a & b & E & _). intros H. rewrite E in H.
  eapply containsParagraphSep_prefix, containsParagraphSep_suffix, H.
Qed.

Lemma containsParagraphSep_none s :
  containsParagraphSep s = false ->
  forall a b before, s = a ++ b -> matchParagraphSep before b = None.
Proof.
  intros H a b before ->. apply containsParagraphSep_suffix in H.
  destruct b as [|c b]; [reflexivity|].
  cbn [containsParagraphSep] in H.
  change (matchParagraphSep before (c :: b)) with (matchParagraphSep [] (c :: b)).
  destruct (matchParagraphSep [] (c :: b)); [discriminate | reflexivity].
Qed.

(** A text without blank-line separator is one paragraph. *)
Lemma split_one_paragraph t :
  containsParagraphSep t = false -> split matchParagraphSep t = [t].
Proof.
  intros H. unfold split. rewrite splitFrom_no_match; [reflexivity|].
  intros a b E. eapply containsParagraphSep_none; eauto.
Qed.

(** When every boundary is one space, the pieces joined by spaces are the
    text again. *)
Lemma splitFrom_single_spaces rest : forall before piece,
  singleSpaceBoundaries before rest = true ->
  exists p ps,
    splitFrom matchSentenceSep before piece 0 rest = p :: ps
    /\ p ++ concat (map (app space) ps) = rev piece ++ rest.
Proof.
  induction rest as [|c rest IH]; intros before piece H.
  - exists (rev piece), []. simpl. split; [reflexivity | now rewrite !app_nil_r].
  - cbn [singleSpaceBoundaries] in H. apply andb_true_iff in H as [H1 H2].
    cbn [splitFrom].
    destruct (matchSentenceSep before (c :: rest)) as [[|k]|].
    + destruct (IH _ (c :: piece) H2) as (p & ps & E1 & E2).
      exists p, ps. split; [exact E1|]. rewrite E2. simpl. now rewrite <- app_assoc.
    + apply andb_true_iff in H1 as [Hk Hc].
      apply Nat.eqb_eq in Hk. apply N.eqb_eq in Hc. subst k c.
      destruct (IH _ [] H2) as (p & ps & E1 & E2).
      exists (rev piece), (p :: ps). split; [now rewrite E1|].
      cbn [map concat]. rewrite <- app_assoc, E2. reflexivity.
    + destruct (IH _ (c :: piece) H2) as (p & ps & E1 & E2).
      exists p, ps. split; [exact E1|]. rewrite E2. simpl. now rewrite <- app_assoc.
Qed.

(** ** Packing *)

Lemma packSentence_first maxLen chunks p :
  packSentence maxLen (chunks, []) p = (chunks, p).
Proof.
  unfold packSentence. simpl.
  destruct (_ <=? _)%Z; reflexivity.
Qed.

Lemma pack_within_limit maxLen ps : forall chunks cur,
  cur <> [] ->
  (Z.of_nat (length (cur ++ concat (map (app space) ps))) <= maxLen)%Z ->
  fold_left (packSentence maxLen) ps (chunks, cur)
  = (chunks, cur ++ concat (map (app space) ps)).
Proof.
  induction ps as [|y ps IH]; intros chunks cur Hne Hlen.
  - simpl. now rewrite app_nil_r.
  - cbn [fold_left map concat] in *.
    assert (Hstep : packSentence maxLen (chunks, cur) y = (chunks, cur ++ space ++ y)).
    { unfold packSentence.
      rewrite !length_app in Hlen. unfold space in Hlen. simpl in Hlen.
      destruct (_ <=? _)%Z eqn:E.
      - destruct cur; [congruence | reflexivity].
      - apply Z.leb_gt in E. lia. }
    rewrite Hstep, IH.
    + now rewrite <- !app_assoc.
    + destruct cur; [congruence | discriminate].
    + now rewrite <- !app_assoc.
Qed.

(** ** The sentence expression *)

Lemma isWhiteSpace_not_terminator c before :
  isWhiteSpace c = true -> afterTerminator (c :: before) = false.
Proof.
  intros H. simpl.
  destruct (c =? 46)%N eqn:E1; [apply N.eqb_eq in E1; subst; discriminate|].
  destruct (c =? 33)%N eqn:E2; [apply N.eqb_eq in E2; subst; discriminate|].
  destruct (c =? 63)%N eqn:E3; [apply N.eqb_eq in E3; subst; discriminate|].
  reflexivity.
Qed.

(** No boundary right after a white-space unit. *)
Lemma matchSentenceSep_after_whitespace c before rest :
  isWhiteSpace c = true -> matchSentenceSep (c :: before) rest = None.
Proof.
  intros H. unfold matchSentenceSep.
  rewrite (isWhiteSpace_not_terminator c before H).
  destruct (existsb _ _); [reflexivity|].
  destruct (afterInitial _); reflexivity.
Qed.

(** A boundary is a whole white-space run that is not empty. *)
Lemma matchSentenceSep_run before rest n :
  matchSentenceSep before rest = Some n ->
  n = length (takeWhile isWhiteSpace rest) /\ n <> O.
Proof.
  unfold matchSentenceSep.
  destruct (existsb _ _); [discriminate|].
  destruct (afterInitial _); [discriminate|].
  destruct (afterTerminator _); [|discriminate].
  destruct (length _) eqn:E; [discriminate|].
  intros [= <-]. split; [reflexivity | discriminate].
Qed.

Lemma startsWith_app w s : startsWith w (w ++ s) = true.
Proof.
  induction w as [|a w IH]; simpl; [reflexivity|].
  now rewrite N.eqb_refl, IH.
Qed.

Lemma matchSentenceSep_after_abbreviation a rest :
  endsWithAbbreviation a -> matchSentenceSep (rev a) rest = None.
Proof.
  intros (u & abbr & Hin & ->). unfold matchSentenceSep.
  assert (H : existsb (endsWith (rev (u ++ abbr))) abbreviations = true).
  { apply existsb_exists. exists abbr. split; [exact Hin|].
    unfold endsWith. rewrite rev_app_distr. apply startsWith_app. }
  now rewrite H.
Qed.

Lemma matchSentenceSep_after_initial a rest :
  endsWithInitial a -> matchSentenceSep (rev a) rest = None.
Proof.
  intros (u & letter & Hup & -> & Hb). unfold matchSentenceSep.
  destruct (existsb _ _); [reflexivity|].
  assert (H : afterInitial (rev (u ++ [letter; 46%N])) = true).
  { rewrite rev_app_distr. simpl. rewrite Hup. simpl.
    destruct (rev u); [reflexivity | now rewrite Hb]. }
  now rewrite H.
Qed.

(** ** How the scan passes over a prefix *)

(** After any prefix the scan is again in a state of the same kind: some
    pieces are closed, the open piece is a suffix of what was read, and a
    separator still being passed over lies within the white space ahead. *)
Lemma splitFrom_prefix a : forall before piece skip rest,
  (skip <= length (takeWhile isWhiteSpace (a ++ rest)))%nat ->
  exists closed piece' skip',
    splitFrom matchSentenceSep before piece skip (a ++ rest)
    = closed ++ splitFrom matchSentenceSep (rev a ++ before) piece' skip' rest
    /\ (exists a1, rev piece ++ a = a1 ++ rev piece')
    /\ (skip' <= length (takeWhile isWhiteSpace rest))%nat.
Proof.
  induction a as [|c a IH]; intros before piece skip rest Hskip.
  - exists [], piece, skip. simpl. split; [reflexivity|]. split; [|exact Hskip].
    exists []. now rewrite app_nil_r.
  - cbn [app splitFrom]. cbn [app takeWhile] in Hskip.
    assert (Hrev : forall x, rev (c :: a) ++ x = rev a ++ c :: x).
    { intros x. simpl. now rewrite <- app_assoc. }
    destruct skip as [|k].
    + destruct (matchSentenceSep before (c :: a ++ rest)) as [[|k]|] eqn:E.
      * destruct (IH (c :: before) (c :: piece) O rest (Nat.le_0_l _))
          as (closed & piece' & skip' & E1 & (a1 & E2) & E3).
        exists closed, piece', skip'. rewrite Hrev. split; [exact E1|].
        split; [|exact E3]. exists a1. rewrite <- E2. simpl. now rewrite <- app_assoc.
      * apply matchSentenceSep_run in E as [E _]. cbn [takeWhile] in E.
        destruct (isWhiteSpace c); [|discriminate]. simpl in E.
        destruct (IH (c :: before) [] k rest) as (closed & piece' & skip' & E1 & (a1 & E2) & E3);
          [lia|].
        exists (rev piece :: closed), piece', skip'. rewrite Hrev, E1.
        split; [reflexivity|]. split; [|exact E3].
        exists (rev piece ++ c :: a1). simpl in E2. rewrite E2.
        now rewrite <- app_assoc.
      * destruct (IH (c :: before) (c :: piece) O rest (Nat.le_0_l _))
          as (closed & piece' & skip' & E1 & (a1 & E2) & E3).
        exists closed, piece', skip'. rewrite Hrev. split; [exact E1|].
        split; [|exact E3]. exists a1. rewrite <- E2. simpl. now rewrite <- app_assoc.
    + destruct (isWhiteSpace c); [|simpl in Hskip; lia]. simpl in Hskip.
      destruct (IH (c :: before) [] k rest) as (closed & piece' & skip' & E1 & (a1 & E2) & E3);
        [lia|].
      exists closed, piece', skip'. rewrite Hrev. split; [exact E1|].
      split; [|exact E3]. exists (rev piece ++ c :: a1). simpl in E2. rewrite E2.
      now rewrite <- app_assoc.
Qed.

(** A white-space run at whose start there is no boundary is added to the
    open piece as it stands. *)
Lemma splitFrom_whitespace_run w : forall before piece rest,
  forallb isWhiteSpace w = true ->
  matchSentenceSep before (w ++ rest) = None ->
  splitFrom matchSentenceSep before piece 0 (w ++ rest)
  = splitFrom matchSentenceSep (rev w ++ before) (rev w ++ piece) 0 rest.
Proof.
  induction w as [|c w IH]; intros before piece rest Hw Hm; [reflexivity|].
  cbn [forallb] in Hw. apply andb_true_iff in Hw as [Hc Hw].
  cbn [app splitFrom]. cbn [app] in Hm. rewrite Hm.
  rewrite IH; [|exact Hw|now apply matchSentenceSep_after_whitespace].
  simpl. now rewrite <- !app_assoc.
Qed.

(** The first piece the scan gives out starts with the open piece; it goes
    on into the text ahead unless a boundary starts right there. *)
Lemma splitFrom_head rest : forall before piece,
  exists y later b1,
    splitFrom matchSentenceSep before piece 0 rest = (rev piece ++ y) :: later
    /\ rest = y ++ b1
    /\ (rest <> [] -> matchSentenceSep before rest = None -> y <> []).
Proof.
  induction rest as [|c rest IH]; intros before piece.
  - exists [], [], []. simpl. rewrite app_nil_r. now repeat split.
  - cbn [splitFrom].
    destruct (matchSentenceSep before (c :: rest)) as [[|k]|] eqn:E.
    + destruct (IH (c :: before) (c :: piece)) as (y & later & b1 & E1 & E2 & _).
      exists (c :: y), later, b1. rewrite E1. simpl. rewrite <- app_assoc.
      repeat split; [now rewrite E2 | discriminate].
    + exists [], (splitFrom matchSentenceSep (c :: before) [] k rest), (c :: rest).
      rewrite app_nil_r. repeat split. discriminate.
    + destruct (IH (c :: before) (c :: piece)) as (y & later & b1 & E1 & E2 & _).
      exists (c :: y), later, b1. rewrite E1. simpl. rewrite <- app_assoc.
      repeat split; [now rewrite E2 | discriminate].
Qed.

(** ** Chunker: the claims *)

(** C3 (as amended).  A text of at most [maxLen] units without blank-line
    separator, in which every sentence boundary of the trimmed text is a
    single space, is one chunk, the trimmed text; a text of white space
    only gives no chunk at all. *)
Theorem chunkText_short_input (s : jsstring) (maxLen : option Z) :
  (Z.of_nat (length s) <= maxLenOrDefault maxLen)%Z ->
  containsParagraphSep s = false ->
  singleSpaceBoundaries [] (trim s) = true ->
  chunkText s maxLen = if isEmpty (trim s) then [] else [trim s].
Proof.
  intros Hlen Hpar Hsp. unfold chunkText.
  rewrite (split_one_paragraph _ (containsParagraphSep_trim _ Hpar)).
  cbn [List.filter]. rewrite trim_idempotent.
  destruct (trim_split s) as (_ & _ & _ & Hhead & _).
  pose proof (trim_length s) as Hle.
  destruct (trim s) as [|c t] eqn:Et; [reflexivity|].
  cbn [length Nat.ltb Nat.leb fold_left isEmpty].
  unfold packParagraph. rewrite <- Et, trim_idempotent, Et. cbn [isEmpty].
  destruct (splitFrom_single_spaces (c :: t) [] [] Hsp) as (p & ps & E1 & E2).
  unfold split. rewrite E1. cbn [fold_left]. rewrite packSentence_first.
  change (rev [] ++ c :: t) with (c :: t) in E2.
  assert (Hp : p <> []).
  { intros ->. destruct ps as [|q ps]; [discriminate|].
    simpl in E2. injection E2 as <- _. simpl in Hhead. discriminate. }
  rewrite pack_within_limit; [|exact Hp|rewrite E2; lia].
  rewrite E2. cbn [isEmpty app]. rewrite <- Et, trim_idempotent. reflexivity.
Qed.

(** The amended C3 at the text [" Hi. Yo. "]. *)
Lemma chunkText_short_input_witness :
  chunkText (js " Hi. Yo. ") None = [js "Hi. Yo."].
Proof.
  apply (chunkText_short_input (js " Hi. Yo. ") None); [vm_compute; discriminate | reflexivity | reflexivity].
Defined.

(** C3 as stated fails: two spaces between sentences come back as one, and
    the empty text gives no chunk rather than one empty chunk. *)
Lemma chunkText_short_input_counterexample :
  ((Z.of_nat (length (js "Hi.  Yo.")) <= 300)%Z
   /\ containsParagraphSep (js "Hi.  Yo.") = false
   /\ chunkText (js "Hi.  Yo.") None = [js "Hi. Yo."]
   /\ chunkText (js "Hi.  Yo.") None <> [trim (js "Hi.  Yo.")])
  /\ ((Z.of_nat (length (js "")) <= 300)%Z
      /\ containsParagraphSep (js "") = false
      /\ chunkText (js "") None = []
      /\ chunkText (js "") None <> [trim (js "")]).
Proof.
  repeat split; try reflexivity; try (vm_compute; discriminate).
Qed.

(** C8.  In any text, white space that follows a listed abbreviation, or an
    initial, does not end a sentence: one and the same piece of the split
    holds the end of the abbreviation, the white space, and what comes
    next. *)
Theorem sentence_split_keeps_abbreviations (a w b : jsstring) :
  endsWithAbbreviation a \/ endsWithInitial a ->
  w <> [] ->
  forallb isWhiteSpace w = true ->
  exists closed x y later,
    split matchSentenceSep (a ++ w ++ b) = closed ++ [x ++ w ++ y] ++ later
    /\ x <> [] /\ (exists a0, a = a0 ++ x)
    /\ (exists b1, b = y ++ b1) /\ (b <> [] -> y <> []).
Proof.
  intros Ha Hne Hw.
  assert (Hnone : forall rest, matchSentenceSep (rev a) rest = None).
  { intros rest. destruct Ha as [Ha|Ha];
      [now apply matchSentenceSep_after_abbreviation
      |now apply matchSentenceSep_after_initial]. }
  assert (Hdot : exists a0, a = a0 ++ [46%N]).
  { destruct Ha as [(u & abbr & Hin & ->)|(u & letter & _ & -> & _)].
    - unfold abbreviations in Hin. simpl in Hin.
      repeat (destruct Hin as [<-|Hin];
              [match goal with
               | |- exists a0, u ++ ?l = _ =>
                   exists (u ++ removelast l); rewrite <- app_assoc; reflexivity
               end|]).
      destruct Hin.
    - exists (u ++ [letter]). now rewrite <- app_assoc. }
  destruct Hdot as (a0 & Ea).
  unfold split.
  destruct (splitFrom_prefix a0 [] [] 0 (46%N :: w ++ b) (Nat.le_0_l _))
    as (closed & piece' & skip' & E1 & (a1 & E2) & E3).
  change (takeWhile isWhiteSpace (46%N :: w ++ b)) with (@nil N) in E3.
  assert (skip' = O) by (simpl in E3; lia). subst skip'.
  rewrite app_nil_r in E1. simpl in E2.
  assert (Estep : splitFrom matchSentenceSep (rev a0) piece' 0 (46%N :: w ++ b)
                  = splitFrom matchSentenceSep (rev a) (46%N :: piece') 0 (w ++ b)).
  { cbn [splitFrom].
    destruct (matchSentenceSep (rev a0) (46%N :: w ++ b)) as [n|] eqn:E.
    - apply matchSentenceSep_run in E as [E En]. simpl in E. congruence.
    - rewrite Ea, rev_app_distr. reflexivity. }
  rewrite (splitFrom_whitespace_run w _ _ b Hw (Hnone _)) in Estep.
  destruct (splitFrom_head b (rev w ++ rev a) (rev w ++ 46%N :: piece'))
    as (y & later & b1 & E4 & E5 & E6).
  exists closed, (rev piece' ++ [46%N]), y, later.
  split; [|split; [|split; [|split]]].
  - rewrite Ea at 1. rewrite <- app_assoc. cbn [app]. rewrite E1, Estep, E4.
    rewrite rev_app_distr, rev_involutive. simpl. now rewrite <- !app_assoc.
  - now destruct (rev piece').
  - exists a1. rewrite Ea, E2. now rewrite <- app_assoc.
  - now exists b1.
  - intros Hb. apply E6; [exact Hb|].
    destruct (rev w) as [|c rw] eqn:Erw.
    + apply (f_equal (@rev N)) in Erw. rewrite rev_involutive in Erw. now elim Hne.
    + apply matchSentenceSep_after_whitespace.
      assert (Hin : In c w) by (apply in_rev; rewrite Erw; now left).
      rewrite forallb_forall in Hw. now apply Hw.
Qed.

(** C8 at ["Mr. Smith went. Home"]: the split after ["Mr."] is not made,
    the one after ["went."] is. *)
Lemma sentence_split_keeps_abbreviations_witness :
  exists closed x y later,
    split matchSentenceSep (js "Mr." ++ js " " ++ js "Smith went. Home")
    = closed ++ [x ++ js " " ++ y] ++ later
    /\ x <> [] /\ (exists a0, js "Mr." = a0 ++ x)
    /\ (exists b1, js "Smith went. Home" = y ++ b1)
    /\ (js "Smith went. Home" <> [] -> y <> []).
Proof.
  apply (sentence_split_keeps_abbreviations (js "Mr.") (js " ") (js "Smith went. Home")).
  - left. exists [], (js "Mr."). split; [now left | reflexivity].
  - discriminate.
  - reflexivity.
Defined.

(** ** Arrays filled by a loop *)

Lemma mapR_ok {A B} (f : A -> result B) (g : A -> B) l :
  (forall x, In x l -> f x = Ok (g x)) -> mapR f l = Ok (map g l).
Proof.
  induction l as [|x l IH]; intros H; [reflexivity|].
  simpl. rewrite (H x (or_introl eq_refl)). simpl.
  rewrite IH; [reflexivity|]. intros y Hy. apply H. now right.
Qed.

Lemma arraySet_next {A} (hole : A) (l1 : list A) x l2 v n :
  n = length l1 -> arraySet hole n v (l1 ++ x :: l2) = (l1 ++ [v]) ++ l2.
Proof.
  intros ->. unfold arraySet. rewrite length_app. simpl.
  destruct (Nat.ltb_spec (length l1) (length l1 + S (length l2))) as [_|H]; [|lia].
  rewrite insert_app_r_alt by lia. rewrite Nat.sub_diag. simpl.
  now rewrite <- app_assoc.
Qed.

(** A loop [for (j = 0; j < n; j++) row[j] = f(j)] over an array of at
    least [n] cells rewrites its first [n] cells and leaves the rest. *)
Lemma fill_prefix {A} (hole : A) (f : nat -> A) (step : list A -> nat -> list A) n :
  forall row,
    (n <= length row)%nat ->
    (forall j r, (j < n)%nat -> step r j = arraySet hole j (f j) r) ->
    fold_left step (seq 0 n) row = map f (seq 0 n) ++ drop n row.
Proof.
  induction n as [|n IH]; intros row Hn Hstep.
  - now rewrite drop_0.
  - rewrite seq_S, fold_left_app, IH by (auto with lia). simpl.
    rewrite Hstep by lia.
    destruct (lookup_lt_is_Some_2 row n) as [x Hx]; [lia|].
    rewrite (drop_S _ _ _ Hx).
    rewrite arraySet_next by now rewrite length_map, length_seq.
    now rewrite map_app.
Qed.

Lemma map_const_seq {A} (v : A) n : map (fun _ => v) (seq 0 n) = replicate n v.
Proof.
  generalize 0%nat. induction n as [|n IH]; intros k; simpl; [reflexivity|].
  now rewrite IH.
Qed.

Lemma newArray_ok {A} (x : A) n :
  (0 <= n < 2 ^ 32)%Z -> newArray (Int n) x = Ok (replicate (Z.to_nat n) x).
Proof.
  intros [H1 H2]. unfold newArray.
  destruct (Z.leb_spec 0 n); [|lia]. destruct (Z.ltb_spec n (2 ^ 32)); [|lia].
  reflexivity.
Qed.

Lemma newArray_range_error {A} (x : A) n :
  ~ (0 <= n < 2 ^ 32)%Z -> newArray (Int n) x = Err RangeError.
Proof.
  intros H. unfold newArray.
  destruct (Z.leb_spec 0 n); destruct (Z.ltb_spec n (2 ^ 32)); simpl; try reflexivity.
  lia.
Qed.

(** ** Mask builder *)

Lemma lengthToMask_ok lengths m :
  (0 <= m < 2 ^ 32)%Z ->
  lengthToMask lengths (Some (Int m))
  = Ok (map (fun len => [maskRow (Z.to_nat (Z.min len m)) (Z.to_nat m)]) lengths).
Proof.
  intros Hm. unfold lengthToMask. apply mapR_ok. intros len _.
  rewrite (newArray_ok _ _ Hm). simpl. do 2 f_equal.
  rewrite (fill_prefix 0%Q (fun _ => 1%Q)).
  - rewrite map_const_seq, drop_replicate. reflexivity.
  - rewrite length_replicate. lia.
  - reflexivity.
Qed.

Lemma lengthToMask_range_error len lengths m :
  ~ (0 <= m < 2 ^ 32)%Z ->
  lengthToMask (len :: lengths) (Some (Int m)) = Err RangeError.
Proof.
  intros Hm. unfold lengthToMask. cbn [mapR].
  now rewrite (newArray_range_error _ _ Hm).
Qed.

(** ** Codepoint indexer *)

Lemma codePointAt_in_range text j :
  (j < length text)%nat -> exists cp, codePointAt text j = Some cp.
Proof.
  intros H. unfold codePointAt.
  destruct (lookup_lt_is_Some_2 text j H) as [c ->].
  destruct (isHighSurrogate c); [|now eexists].
  destruct (text !! S j) as [c2|]; [|now eexists].
  destruct (isLowSurrogate c2); now eexists.
Qed.

Lemma fillRow_closed_form p text row :
  (length text <= length row)%nat ->
  UnicodeProcessor.fillRow p text row
  = tokensPerUnit p text ++ drop (length text) row.
Proof.
  intros H. unfold UnicodeProcessor.fillRow, tokensPerUnit.
  apply (fill_prefix 0%Z); [exact H|].
  intros j r Hj. unfold tokenAt.
  now destruct (codePointAt_in_range text j Hj) as [cp ->].
Qed.

Lemma fold_left_Zmax_of_nat l x :
  fold_left Z.max (map Z.of_nat l) (Z.of_nat x) = Z.of_nat (Nat.max x (list_max l)).
Proof.
  revert x. induction l as [|y l IH]; intros x; simpl.
  - now rewrite Nat.max_0_r.
  - rewrite <- Nat2Z.inj_max, IH. f_equal. lia.
Qed.

Lemma mathMax_lengths (texts : list jsstring) :
  texts <> [] ->
  mathMax (map (fun text => Z.of_nat (length text)) texts)
  = Int (Z.of_nat (list_max (map length texts))).
Proof.
  destruct texts as [|t texts]; [congruence|]. intros _.
  unfold mathMax. cbn [map].
  change (map (fun text => Z.of_nat (length text)) texts)
    with (map (fun text : jsstring => Z.of_nat (length text)) texts).
  rewrite <- (map_map (@length N) Z.of_nat), fold_left_Zmax_of_nat.
  reflexivity.
Qed.

Lemma length_le_list_max (texts : list jsstring) t :
  In t texts -> (length t <= list_max (map length texts))%nat.
Proof.
  intros H. assert (Hall := proj1 (list_max_le (map length texts) _) (Nat.le_refl _)).
  rewrite List.Forall_forall in Hall. apply Hall. now apply in_map.
Qed.






(** ** Latent sampler *)

Lemma bumpDraws_0 w : bumpDraws 0 w = w.
Proof. destruct w. unfold bumpDraws. simpl. now rewrite Nat.add_0_r. Qed.

Lemma bumpDraws_bumpDraws n m w : bumpDraws n (bumpDraws m w) = bumpDraws (m + n) w.
Proof. unfold bumpDraws. simpl. now rewrite Nat.add_assoc. Qed.

Lemma gaussianCell_draws_only host :
  draws_only (fun _ => True) (TextToSpeech.gaussianCell host).
Proof.
  intros w. eexists _, 2%nat. split; [|exact I].
  unfold TextToSpeech.gaussianCell, bind, mathRandom, ret, bumpDraws. simpl.
  repeat f_equal. lia.
Qed.

Lemma timesM_draws_only {A} (P : A -> Prop) (c : M A) n :
  draws_only P c ->
  draws_only (fun l => length l = n /\ Forall P l) (timesM n c).
Proof.
  intros Hc. induction n as [|n IH]; intros w.
  - exists [], 0%nat. simpl. unfold ret. rewrite bumpDraws_0. auto.
  - destruct (Hc w) as (a & k & Ea & Pa).
    destruct (IH (bumpDraws k w)) as (l & k' & El & Hl & Pl).
    exists (a :: l), (k + k')%nat. simpl. unfold bind. rewrite Ea, El.
    unfold ret. rewrite bumpDraws_bumpDraws. simpl. auto.
Qed.

(** The noise tensor: [bsz] batches of [dimVal] rows of [len] cells. *)
Lemma noise_draws_only host bsz dimVal len :
  draws_only
    (fun xt => length xt = bsz
               /\ Forall (fun batch => length batch = dimVal
                                       /\ Forall (fun row => length row = len) batch) xt)
    (timesM bsz (timesM dimVal (timesM len (TextToSpeech.gaussianCell host)))).
Proof.
  apply timesM_draws_only.
  intros w.
  destruct (timesM_draws_only _ _ dimVal
              (timesM_draws_only _ _ len (gaussianCell_draws_only host)) w)
    as (batch & n & E & Hl & Hrows).
  exists batch, n. split; [exact E|]. split; [exact Hl|].
  eapply Forall_impl; [exact Hrows|]. now intros row [Hrow _].
Qed.

(** What the sampler does for a batch that is not empty and a chunk size
    that is not zero: it draws the noise, then all depends on the mask
    builder. *)
Lemma sampleNoisyLatent_unfold host d0 ds sr base compress ld w :
  (base * compress <> 0)%Z ->
  exists noise n,
    (length noise = length (d0 :: ds)
     /\ Forall (fun batch =>
                  length batch = Z.to_nat (ld * compress)
                  /\ Forall (fun row =>
                               length row
                               = Z.to_nat (latentLength
                                             (Qfloor (maxFrom d0 ds * inject_Z sr))
                                             (base * compress)))
                            batch) noise)
    /\ TextToSpeech.sampleNoisyLatent host (d0 :: ds) sr base compress ld w
       = match lengthToMask
                 (map (fun len => latentLength len (base * compress))
                      (map (fun d => Qfloor (d * inject_Z sr)) (d0 :: ds)))
                 (Some (Int (latentLength (Qfloor (maxFrom d0 ds * inject_Z sr))
                                          (base * compress))))
         with
         | Ok mask => (Ok (TextToSpeech.applyMask noise mask, mask), bumpDraws n w)
         | Err e => (Err e, bumpDraws n w)
         end.
Proof.
  intros Hcs. unfold TextToSpeech.sampleNoisyLatent.
  destruct (Z.eqb_spec (base * compress) 0) as [E|_]; [contradiction|].
  destruct (noise_draws_only host (length (d0 :: ds)) (Z.to_nat (ld * compress))
              (Z.to_nat (latentLength (Qfloor (maxFrom d0 ds * inject_Z sr))
                                      (base * compress))) w)
    as (noise & n & E & Hshape).
  exists noise, n. split; [exact Hshape|].
  unfold bind. unfold latentLength in *. rewrite E. unfold lift, ret.
  now destruct (lengthToMask _ _).
Qed.







(** ** WAV encoder *)

Lemma storeAt_next bytes : forall hd old tl,
  length old = length bytes ->
  storeAt (length hd) bytes (hd ++ old ++ tl) = hd ++ bytes ++ tl.
Proof.
  induction bytes as [|x bytes IH]; intros hd old tl H;
    destruct old as [|o old]; try discriminate; [reflexivity|].
  cbn [storeAt app].
  rewrite insert_app_r_alt by lia. rewrite Nat.sub_diag.
  change (<[0%nat:=x]> (o :: old ++ tl)) with ([x] ++ old ++ tl).
  replace (S (length hd)) with (length (hd ++ [x])) by (rewrite length_app; simpl; lia).
  rewrite (app_assoc hd [x]). rewrite IH by (simpl in H; lia).
  now rewrite <- app_assoc.
Qed.

(** A store right after the part already written, into cells that still
    hold zero. *)
Lemma setBytes_next offset bytes hd n :
  offset = length hd -> (length bytes <= n)%nat ->
  setBytes offset bytes (hd ++ replicate n 0%Z)
  = Ok ((hd ++ bytes) ++ replicate (n - length bytes) 0%Z).
Proof.
  intros -> Hn. unfold setBytes. rewrite length_app, length_replicate.
  destruct (Nat.leb_spec (length hd + length bytes) (length hd + n)); [|lia].
  replace n with (length bytes + (n - length bytes))%nat at 1 by lia.
  rewrite replicate_add, storeAt_next by apply length_replicate.
  now rewrite <- app_assoc.
Qed.

Lemma writeString_next s : forall offset hd n,
  offset = length hd -> (length s <= n)%nat ->
  writeString offset s (hd ++ replicate n 0%Z)
  = Ok ((hd ++ concat (map (fun c => leBytes 1 (Z.of_N c)) s))
          ++ replicate (n - length s) 0%Z).
Proof.
  induction s as [|c s IH]; intros offset hd n Hoff Hn.
  - simpl. now rewrite app_nil_r, Nat.sub_0_r.
  - cbn [writeString]. unfold setUint8.
    rewrite setBytes_next by (trivial; simpl in *; lia). cbn [bindR].
    rewrite IH.
    + replace (n - length (leBytes 1 (Z.of_N c)) - length s)%nat
        with (n - length (c :: s))%nat by (simpl; lia).
      cbn [map concat]. now rewrite <- !app_assoc.
    + rewrite length_app. simpl. lia.
    + simpl in *. lia.
Qed.


(** The thirteen header stores fill the first 44 bytes and leave the
    sample area zeroed. *)
Lemma writeWavToBuffer_header (audioData : list Q) (sampleRate : Z) :
  writeWavToBuffer audioData sampleRate
  = writeSamples 0 audioData
      (wavHeader sampleRate (length audioData)
       ++ replicate (2 * length audioData) 0%Z).
Proof.
  unfold writeWavToBuffer. cbv zeta.
  assert (Hsize : (Z.of_nat (length audioData) * 16 / 8 = 2 * Z.of_nat (length audioData))%Z).
  { symmetry. apply Z.div_unique_exact; lia. }
  rewrite Hsize.
  replace (Z.to_nat (44 + 2 * Z.of_nat (length audioData)))
    with (44 + 2 * length audioData)%nat by lia.
  change (replicate (44 + 2 * length audioData) 0%Z)
    with ([] ++ replicate (44 + 2 * length audioData) 0%Z).
  unfold setUint32, setUint16.
  repeat (first [rewrite writeString_next by (first [reflexivity | simpl; lia])
                |rewrite setBytes_next by (first [reflexivity | simpl; lia])];
          cbn [bindR]).
  match goal with
  | |- writeSamples 0 _ (?hd ++ replicate ?n _) = _ =>
      replace n with (2 * length audioData)%nat by (simpl; lia)
  end.
  reflexivity.
Qed.


(** ** Inference orchestrator *)

Lemma addCalls_nil w : addCalls [] w = w.
Proof. destruct w. unfold addCalls. simpl. now rewrite app_nil_r. Qed.

Lemma addCalls_addCalls a b w : addCalls b (addCalls a w) = addCalls (a ++ b) w.
Proof. unfold addCalls. simpl. now rewrite app_assoc. Qed.

Lemma addCalls_bumpDraws cs n w : addCalls cs (bumpDraws n w) = bumpDraws n (addCalls cs w).
Proof. reflexivity. Qed.

(** The sampler makes no session run and leaves the style cache alone. *)
Lemma sampleNoisyLatent_world host duration sr base compress ld w r w' :
  TextToSpeech.sampleNoisyLatent host duration sr base compress ld w = (r, w') ->
  exists n, w' = bumpDraws n w.
Proof.
  destruct duration as [|d0 ds].
  - intros [= _ <-]. exists 0%nat. now rewrite bumpDraws_0.
  - destruct (Z.eq_dec (base * compress)%Z 0%Z) as [E|E].
    + unfold TextToSpeech.sampleNoisyLatent. rewrite E. simpl.
      intros [= _ <-]. exists 0%nat. now rewrite bumpDraws_0.
    + destruct (sampleNoisyLatent_unfold host d0 ds sr base compress ld w E)
        as (noise & n & _ & ->).
      destruct (lengthToMask _ _); intros [= _ <-]; now exists n.
Qed.



Lemma bind_ok {A B} (c : M A) (k : A -> M B) w a w' :
  c w = (Ok a, w') -> bind c k w = k a w'.
Proof. intros H. unfold bind. now rewrite H. Qed.

Lemma bind_err {A B} (c : M A) (k : A -> M B) w e w' :
  c w = (Err e, w') -> bind c k w = (Err e, w').
Proof. intros H. unfold bind. now rewrite H. Qed.

Lemma denoiseStep_run tts bsz lf xt step w :
  TextToSpeech.denoiseStep tts bsz lf xt step w
  = (Ok (nextLatent tts bsz lf xt step),
     addCalls [RunVectorEstimator (TextToSpeech.estimatorFeeds bsz lf xt step)] w).
Proof. reflexivity. Qed.

(** The denoising loop: the latent goes through [nextLatent] once per
    step, and each turn runs the vector estimator once. *)
Lemma denoise_loop tts bsz lf steps : forall xt w,
  foldM (TextToSpeech.denoiseStep tts bsz lf) steps xt w
  = (Ok (fold_left (nextLatent tts bsz lf) steps xt),
     addCalls (map RunVectorEstimator (feedsOfLoop tts bsz lf steps xt)) w).
Proof.
  induction steps as [|step steps IH]; intros xt w.
  - simpl. unfold ret. now rewrite addCalls_nil.
  - cbn [foldM fold_left feedsOfLoop map].
    rewrite (bind_ok _ _ _ _ _ (denoiseStep_run tts bsz lf xt step w)).
    rewrite IH, addCalls_addCalls. reflexivity.
Qed.





(** [infer] once [prepare] has returned. *)
Lemma infer_after_prepare host tts textList style totalStep speed w p w1 :
  TextToSpeech.prepare host tts textList style speed w = (Ok p, w1) ->
  let bsz := length textList in
  let lf := TextToSpeech.loopFeeds bsz style totalStep p in
  let steps := seq 0 (Z.to_nat totalStep) in
  let xt := fold_left (nextLatent tts bsz lf) steps (TextToSpeech.p_xt p) in
  TextToSpeech.infer host tts textList style totalStep speed w
  = (Ok (TextToSpeech.vocoderOrt tts (TextToSpeech.latentTensor bsz xt),
         TextToSpeech.p_duration p),
     addCalls (map RunVectorEstimator
                   (feedsOfLoop tts bsz lf steps (TextToSpeech.p_xt p))
               ++ [RunVocoder (TextToSpeech.latentTensor bsz xt)]) w1).
Proof.
  intros H. cbv zeta. unfold TextToSpeech.infer.
  rewrite (bind_ok _ _ _ _ _ H).
  rewrite (bind_ok _ _ _ _ _ (denoise_loop _ _ _ _ _ _)).
  unfold bind, record, ret. now rewrite <- addCalls_addCalls.
Qed.





Lemma length_feedsOfLoop tts bsz lf steps : forall xt,
  length (feedsOfLoop tts bsz lf steps xt) = length steps.
Proof. induction steps; intros xt; simpl; auto. Qed.

Lemma map_seq_of_nat (f : Z -> Tensor Q) n :
  map (fun step => f (Z.of_nat step)) (seq 0 n) = map f (map Z.of_nat (seq 0 n)).
Proof. now rewrite map_map. Qed.

(** ** Orchestrator and facade: the claims *)



(** C5.  A style whose [style_ttl] does not have 1 as its first dimension
    makes [call] throw the single-speaker error in the world it was
    called in: no session has been run. *)
Theorem call_rejects_multi_style (host : Host) (tts : TextToSpeech.t)
    (text : jsstring) (style : Style) (totalStep : Z) (speed silenceDuration : Q)
    (w : World) :
  nth_error (tdims (ttl style)) 0 <> Some 1%Z ->
  TextToSpeech.call host tts text style totalStep speed silenceDuration w
  = (Err (Error TextToSpeech.singleSpeakerMessage), w).
Proof.
  intros H. unfold TextToSpeech.call.
  destruct (tdims (ttl style)) as [|d0 rest]; [reflexivity|].
  destruct d0 as [|q|q]; try reflexivity.
  destruct q; try reflexivity. now elim H.
Qed.

(** C5 at a style of two speakers. *)
Lemma call_rejects_multi_style_witness :
  TextToSpeech.call exampleHost exampleTts (js "Hi.") twoSpeakerStyle 5 1 (3 # 10) emptyWorld
  = (Err (Error TextToSpeech.singleSpeakerMessage), emptyWorld).
Proof.
  apply (call_rejects_multi_style exampleHost exampleTts (js "Hi.") twoSpeakerStyle
           5 1 (3 # 10) emptyWorld).
  discriminate.
Defined.



(** ** Facade *)

Lemma chunkText_whitespace_only s maxLen :
  forallb isWhiteSpace s = true -> chunkText s maxLen = [].
Proof.
  intros H. unfold chunkText. now rewrite (trim_whitespace_only s H).
Qed.

(** A style that [loadVoiceStyle] returns has a leading dimension of 1,
    and loading runs no session. *)
Lemma loadVoiceStyle_single host id w style w1 :
  singleStyleCache w ->
  loadVoiceStyle host id w = (Ok style, w1) ->
  (exists d1 d2, tdims (ttl style) = [1; d1; d2]%Z) /\ calls w1 = calls w.
Proof.
  intros Hinv. unfold loadVoiceStyle, bind at 1, getStyleCache.
  destruct (globalStyleCache w id) as [cached|] eqn:Ec.
  - unfold ret. intros [= <- <-]. split; [now apply (Hinv id) | reflexivity].
  - destruct (dims (style_ttl (fetchVoiceStyle host id))) as [[x1 d1] d2].
    destruct (dims (style_dp (fetchVoiceStyle host id))) as [[y1 e1] e2].
    unfold bind, lift.
    destruct (newFloat32Array (d1 * d2)); [|discriminate].
    destruct (newFloat32Array (e1 * e2)); [|discriminate].
    destruct (typedArraySet _ _); [|discriminate].
    destruct (typedArraySet _ _); [|discriminate].
    unfold setStyleCache, ret. intros [= <- <-]. simpl. eauto.
Qed.

Lemma Qfloor_mult_0_r q : Qfloor (q * 0) = 0%Z.
Proof. rewrite (Qfloor_comp (q * 0) 0); [reflexivity | ring]. Qed.

(** C9.  For a text of white space only (the empty text included) and a
    voice style that loads, [synthesize] returns: the chunker gives no
    chunk, no session is run, the duration is 0 and the buffer is the
    44-byte header of a WAV file without samples. *)
Theorem synthesize_blank_text (host : Host) (tts : TextToSpeech.t)
    (options : SynthesizeOptions) (w : World) (style : Style) (w1 : World) :
  forallb isWhiteSpace (text options) = true ->
  singleStyleCache w ->
  loadVoiceStyle host (voiceStyle options) w = (Ok style, w1) ->
  chunkText (text options) None = []
  /\ synthesize host tts options w
     = (Ok {| wavBuffer := wavHeader (TextToSpeech.sampleRate tts) 0;
              resultSampleRate := TextToSpeech.sampleRate tts;
              durationSeconds := 0 |}, w1)
  /\ calls w1 = calls w
  /\ length (wavHeader (TextToSpeech.sampleRate tts) 0) = 44%nat.
Proof.
  intros Hws Hinv Hload.
  destruct (loadVoiceStyle_single host _ w style w1 Hinv Hload) as [(d1 & d2 & Hdims) Hcalls].
  pose proof (chunkText_whitespace_only (text options) None Hws) as Hchunks.
  split; [exact Hchunks|]. split; [|split; [exact Hcalls | reflexivity]].
  unfold synthesize. rewrite (bind_ok _ _ _ _ _ Hload).
  assert (Hcall : forall sil,
             TextToSpeech.call host tts (text options) style (totalStep options)
                               (speed options) sil w1
             = (Ok ([], [0%Q]), w1)).
  { intros sil. unfold TextToSpeech.call. rewrite Hdims, Hchunks. reflexivity. }
  rewrite (bind_ok _ _ _ _ _ (Hcall _)). cbn [firstOr].
  rewrite Qfloor_mult_0_r. change (sliceTo [] 0) with (@nil Q).
  unfold bind, lift. rewrite writeWavToBuffer_header. cbn [length writeSamples].
  now rewrite app_nil_r.
Qed.

(** C9 at the text of three blanks, in the world where nothing is cached. *)
Lemma synthesize_blank_text_witness :
  exists w1,
    synthesize exampleHost exampleTts
      {| text := js "   "; voiceStyle := F1; totalStep := 5; speed := 1;
         silenceDurationSeconds := None |} emptyWorld
    = (Ok {| wavBuffer := wavHeader 10 0; resultSampleRate := 10; durationSeconds := 0 |}, w1)
    /\ calls w1 = [].
Proof.
  let v := eval vm_compute in (loadVoiceStyle exampleHost F1 emptyWorld) in
  match v with
  | (Ok ?style, ?w1) =>
      destruct (synthesize_blank_text exampleHost exampleTts
                  {| text := js "   "; voiceStyle := F1; totalStep := 5; speed := 1;
                     silenceDurationSeconds := None |} emptyWorld style w1
                  eq_refl ltac:(intros id s; discriminate) ltac:(vm_compute; reflexivity))
        as (_ & Hs & Hc & _);
      exists w1; split; [exact Hs | exact Hc]
  end.
Defined.

Lemma appendChunk_first host tts style totalStep speed sil durCat chunk w wav duration w1 :
  TextToSpeech.infer host tts [chunk] style totalStep speed w = (Ok (wav, duration), w1) ->
  TextToSpeech.appendChunk host tts style totalStep speed sil ([], durCat) chunk w
  = (Ok (wav, firstOr 0%Q duration), w1).
Proof.
  intros H. unfold TextToSpeech.appendChunk. now rewrite (bind_ok _ _ _ _ _ H).
Qed.









(** ** The scenarios of section 8 *)

(** Scenario 1: one step is one estimator run, with [current_step] 0. *)
Example scenario_one_step :
  map current_step
      (estimatorRuns
         (calls (snd (TextToSpeech.infer exampleHost exampleTts [js "Hi."] exampleStyle
                        1 1 emptyWorld))))
  = [mkTensor [0%Q] [1%Z]].
Proof. reflexivity. Qed.

(** Two samples at 44100 Hz: 0.5 is 16383 = 0x3FFF, and -1.5 is clamped to
    -1, that is -32767 = 0x8001. *)
Example scenario_wav_bytes :
  writeWavToBuffer [1 # 2; -3 # 2]%Q 44100
  = Ok [82; 73; 70; 70; 40; 0; 0; 0; 87; 65; 86; 69;
        102; 109; 116; 32; 16; 0; 0; 0; 1; 0; 1; 0;
        68; 172; 0; 0; 136; 88; 1; 0; 2; 0; 16; 0;
        100; 97; 116; 97; 4; 0; 0; 0;
        255; 63; 1; 128]%Z.
Proof. reflexivity. Qed.

(** Scenario 3: abbreviations do not split the sentence. *)
Example scenario_abbreviations :
  split matchSentenceSep (js "Mr. Smith went to Dr. Jones.")
  = [js "Mr. Smith went to Dr. Jones."].
Proof. reflexivity. Qed.

(** An initial does not split either; a capital that ends a longer word
    does. *)
Example scenario_initials :
  split matchSentenceSep (js "J. Smith left NASA. Then he slept.")
  = [js "J. Smith left NASA."; js "Then he slept."].
Proof. reflexivity. Qed.

(** Scenario 2: two paragraphs are two chunks. *)
Example scenario_two_chunks :
  chunkText (js "A." ++ [10; 10]%N ++ js "B.") None = [js "A."; js "B."].
Proof. reflexivity. Qed.

(** Scenario 6: a code point outside the table is the token -1. *)
Example scenario_unknown_codepoint :
  UnicodeProcessor.call (fun s => s) {| UnicodeProcessor.indexer := [7; 8; 9]%Z |}
                        [[1; 5; 2]%N]
  = Ok ([[8; -1; 9]%Z], [[[1; 1; 1]%Q]]).
Proof. reflexivity. Qed.

(** A style that comes out of [loadVoiceStyle] never meets the
    single-speaker error: whatever the asset says its first dimension is,
    the tensor is built with 1. *)
Lemma loadVoiceStyle_from_empty_cache host id style w1 :
  loadVoiceStyle host id emptyWorld = (Ok style, w1) ->
  exists d1 d2, tdims (ttl style) = [1; d1; d2]%Z.
Proof.
  intros H. apply (loadVoiceStyle_single host id emptyWorld style w1); [|exact H].
  intros id' s. discriminate.
Qed.

(* ===================================================================== *)
(** * Further properties of the code *)
(* ===================================================================== *)

(** ** Chunker: what every chunk list satisfies *)

Lemma nonSpace_app a b : nonSpace (a ++ b) = nonSpace a ++ nonSpace b.
Proof. apply List.filter_app. Qed.

Lemma nonSpace_whitespace w : forallb isWhiteSpace w = true -> nonSpace w = [].
Proof.
  induction w as [|c w IH]; cbn; [easy|].
  intros [Hc Hw]%andb_prop. rewrite Hc. cbn. auto.
Qed.

Lemma nonSpace_dropWhile s : nonSpace (dropWhile isWhiteSpace s) = nonSpace s.
Proof.
  destruct (dropWhile_split isWhiteSpace s) as (w & Hs & Hw).
  rewrite Hs at 2. rewrite nonSpace_app, (nonSpace_whitespace w Hw). reflexivity.
Qed.

Lemma nonSpace_rev s : nonSpace (rev s) = rev (nonSpace s).
Proof.
  induction s as [|c s IH]; cbn; [easy|].
  rewrite nonSpace_app, IH. cbn. destruct (isWhiteSpace c); cbn; [apply app_nil_r|easy].
Qed.

Lemma nonSpace_trim s : nonSpace (trim s) = nonSpace s.
Proof.
  unfold trim.
  rewrite nonSpace_rev, nonSpace_dropWhile, nonSpace_rev, rev_involutive.
  apply nonSpace_dropWhile.
Qed.

Lemma takeWhile_head c rest k :
  (S k <= length (takeWhile isWhiteSpace (c :: rest)))%nat ->
  isWhiteSpace c = true /\ (k <= length (takeWhile isWhiteSpace rest))%nat.
Proof. cbn. destruct (isWhiteSpace c); cbn; [split; [easy|lia]|lia]. Qed.

Lemma splitFrom_nonSpace (m : matcher) :
  consumesWhiteSpace m ->
  forall rest before piece skip,
    (skip <= length (takeWhile isWhiteSpace rest))%nat ->
    nonSpace (concat (splitFrom m before piece skip rest))
    = nonSpace (match skip with O => rev piece | S _ => [] end ++ rest).
Proof.
  intros Hm. induction rest as [|c rest IH]; intros before piece skip Hskip.
  - cbn in Hskip. assert (skip = O) by lia. subst. cbn. now rewrite !app_nil_r.
  - destruct skip as [|k].
    + cbn [splitFrom].
      assert (Hnext : nonSpace (concat (splitFrom m (c :: before) (c :: piece) 0 rest))
                      = nonSpace (rev piece ++ c :: rest)).
      { rewrite IH by lia. cbn [rev]. now rewrite <- app_assoc. }
      destruct (m before (c :: rest)) as [[|k]|] eqn:Hmatch; try exact Hnext.
      apply Hm, takeWhile_head in Hmatch as [Hc Hk].
      assert (Hk' : nonSpace (c :: rest) = nonSpace rest) by (cbn; now rewrite Hc).
      cbn [concat]. rewrite (nonSpace_app (rev piece) (c :: rest)), Hk'.
      rewrite nonSpace_app, IH by exact Hk. f_equal. now destruct k.
    + apply takeWhile_head in Hskip as [Hc Hk].
      assert (Hk' : nonSpace (c :: rest) = nonSpace rest) by (cbn; now rewrite Hc).
      cbn [splitFrom app]. rewrite Hk', IH by exact Hk. now destruct k.
Qed.

Lemma lastNewlineEnd_le w k :
  lastNewlineEnd w = Some k -> (k <= length (takeWhile isWhiteSpace w))%nat.
Proof.
  revert k. induction w as [|c w IH]; intros k; cbn; [easy|].
  destruct (isWhiteSpace c); [|easy].
  destruct (lastNewlineEnd w) as [j|].
  - intros [= <-]. specialize (IH j eq_refl). cbn. lia.
  - destruct (c =? 10)%N; [|easy]. intros [= <-]. cbn. lia.
Qed.

Lemma matchParagraphSep_whitespace : consumesWhiteSpace matchParagraphSep.
Proof.
  intros before [|c r] n; cbn; [easy|].
  destruct (c =? 10)%N eqn:Hc; [|easy].
  apply N.eqb_eq in Hc. subst c.
  destruct (lastNewlineEnd r) as [k|] eqn:Hk; cbn; [|easy].
  intros [= <-]. apply lastNewlineEnd_le in Hk.
  change (isWhiteSpace 10) with true. cbn. lia.
Qed.

Lemma matchSentenceSep_whitespace : consumesWhiteSpace matchSentenceSep.
Proof. intros before rest n H. apply matchSentenceSep_run in H as [-> _]. lia. Qed.

Lemma split_nonSpace m s :
  consumesWhiteSpace m -> nonSpace (concat (split m s)) = nonSpace s.
Proof. intros Hm. unfold split. now rewrite (splitFrom_nonSpace m Hm) by lia. Qed.

Lemma packSentence_nonSpace maxLen chunks cur s :
  nonSpace (concat (fst (packSentence maxLen (chunks, cur) s))
            ++ snd (packSentence maxLen (chunks, cur) s))
  = nonSpace (concat chunks ++ cur) ++ nonSpace s.
Proof.
  unfold packSentence.
  destruct (_ <=? _)%Z; cbn [fst snd].
  - destruct cur; cbn [isEmpty]; rewrite !nonSpace_app;
      change (nonSpace space) with (@nil N); change (nonSpace []) with (@nil N);
      cbn [app]; now rewrite ?app_nil_r, <- ?app_assoc.
  - destruct cur; cbn [isEmpty].
    + now rewrite app_nil_r, !nonSpace_app.
    + rewrite concat_app, !nonSpace_app. cbn [concat].
      now rewrite app_nil_r, nonSpace_trim.
Qed.

Lemma pack_nonSpace maxLen ss : forall chunks cur,
  nonSpace (concat (fst (fold_left (packSentence maxLen) ss (chunks, cur)))
            ++ snd (fold_left (packSentence maxLen) ss (chunks, cur)))
  = nonSpace (concat chunks ++ cur) ++ nonSpace (concat ss).
Proof.
  induction ss as [|s ss IH]; intros chunks cur; cbn [fold_left concat].
  - cbn. now rewrite app_nil_r.
  - destruct (packSentence maxLen (chunks, cur) s) as [chunks1 cur1] eqn:Hp.
    rewrite IH. pose proof (packSentence_nonSpace maxLen chunks cur s) as H.
    rewrite Hp in H. cbn [fst snd] in H. rewrite H.
    now rewrite (nonSpace_app s), app_assoc.
Qed.

Lemma trim_nil_nonSpace s : trim s = [] -> nonSpace s = [].
Proof. intros H. now rewrite <- nonSpace_trim, H. Qed.

Lemma isEmpty_true {A} (l : list A) : isEmpty l = true -> l = [].
Proof. now destruct l. Qed.

Lemma packParagraph_nonSpace maxLen chunks p :
  nonSpace (concat (packParagraph maxLen chunks p))
  = nonSpace (concat chunks) ++ nonSpace p.
Proof.
  unfold packParagraph.
  destruct (isEmpty (trim p)) eqn:He.
  - apply isEmpty_true, trim_nil_nonSpace in He. now rewrite He, app_nil_r.
  - pose proof (pack_nonSpace maxLen (split matchSentenceSep (trim p)) chunks []) as H.
    destruct (fold_left _ _ _) as [chunks1 cur1]. cbn [fst snd] in H.
    rewrite app_nil_r, split_nonSpace, nonSpace_trim in H
      by exact matchSentenceSep_whitespace.
    rewrite <- H. destruct cur1; cbn [isEmpty].
    + now rewrite app_nil_r.
    + rewrite concat_app, !nonSpace_app. cbn [concat].
      now rewrite app_nil_r, nonSpace_trim.
Qed.

Lemma paragraphs_nonSpace maxLen ps : forall chunks,
  nonSpace (concat (fold_left (packParagraph maxLen) ps chunks))
  = nonSpace (concat chunks) ++ nonSpace (concat ps).
Proof.
  induction ps as [|p ps IH]; intros chunks; cbn [fold_left concat].
  - now rewrite app_nil_r.
  - now rewrite IH, packParagraph_nonSpace, (nonSpace_app p), app_assoc.
Qed.

Lemma nonblank_filter_nonSpace ps :
  nonSpace (concat (List.filter (fun p => (0 <? length (trim p))%nat) ps))
  = nonSpace (concat ps).
Proof.
  induction ps as [|p ps IH]; cbn [List.filter concat]; [easy|].
  destruct (0 <? length (trim p))%nat eqn:Hp; cbn [concat]; rewrite !nonSpace_app, ?IH.
  - reflexivity.
  - apply Nat.ltb_ge in Hp. destruct (trim p) eqn:Ht; [|cbn in Hp; lia].
    now rewrite (trim_nil_nonSpace p Ht).
Qed.

(** X1.  Chunking loses and reorders nothing but white space: the units of
    the chunks that are not white space, read chunk after chunk, are those
    of the text, for every text and every limit. *)
Theorem chunkText_keeps_content (text : jsstring) (maxLen : option Z) :
  nonSpace (concat (chunkText text maxLen)) = nonSpace text.
Proof.
  unfold chunkText.
  rewrite paragraphs_nonSpace, nonblank_filter_nonSpace, split_nonSpace
    by exact matchParagraphSep_whitespace.
  apply nonSpace_trim.
Qed.

Lemma notBlank_trim cur : cur <> [] -> notBlank cur -> trim cur <> [].
Proof.
  intros Hne [->|Hink] Ht; [congruence|].
  apply Hink, trim_nil_nonSpace, Ht.
Qed.

Lemma notBlank_rev_cons c p : isWhiteSpace c = false -> notBlank (rev (c :: p)).
Proof.
  intros Hc. right. rewrite nonSpace_rev. cbn. rewrite Hc. cbn.
  intros H. apply app_eq_nil in H as [_ H]. discriminate.
Qed.

Lemma splitFrom_pieces_notBlank rest : forall before piece skip,
  (skip <= length (takeWhile isWhiteSpace rest))%nat ->
  (piece = [] \/ exists c p b, piece = c :: p /\ before = c :: b) ->
  headRejected isWhiteSpace (rev rest ++ before) ->
  Forall notBlank (splitFrom matchSentenceSep before piece skip rest).
Proof.
  induction rest as [|c rest IH]; intros before piece skip Hskip Hpiece Hlast.
  - cbn. constructor; [|constructor].
    destruct Hpiece as [->|(c & p & b & -> & ->)]; [now left|].
    now apply notBlank_rev_cons.
  - cbn [rev] in Hlast. rewrite <- app_assoc in Hlast. cbn [app] in Hlast.
    destruct skip as [|k]; cbn [splitFrom].
    + assert (Hnext : Forall notBlank
                        (splitFrom matchSentenceSep (c :: before) (c :: piece) 0 rest)).
      { apply IH; [lia| |exact Hlast]. right. now exists c, piece, before. }
      destruct (matchSentenceSep before (c :: rest)) as [[|k]|] eqn:Hm; try exact Hnext.
      constructor.
      * destruct Hpiece as [->|(c0 & p & b & -> & ->)]; [now left|].
        apply notBlank_rev_cons.
        destruct (isWhiteSpace c0) eqn:Hc0; [|reflexivity].
        now rewrite (matchSentenceSep_after_whitespace c0 b (c :: rest) Hc0) in Hm.
      * apply matchSentenceSep_run in Hm as [Hm _].
        apply IH; [|now left|exact Hlast].
        assert (Hle : (S k <= length (takeWhile isWhiteSpace (c :: rest)))%nat) by lia.
        now apply takeWhile_head in Hle.
    + apply takeWhile_head in Hskip as [_ Hk].
      apply IH; [exact Hk|now left|exact Hlast].
Qed.

Lemma sentences_notBlank p : Forall notBlank (split matchSentenceSep (trim p)).
Proof.
  apply splitFrom_pieces_notBlank; [lia|now left|].
  rewrite app_nil_r. now destruct (trim_split p) as (a & b & _ & _ & H).
Qed.

Lemma packSentence_tidy maxLen chunks cur s :
  Forall tidy chunks -> notBlank cur -> notBlank s ->
  Forall tidy (fst (packSentence maxLen (chunks, cur) s))
  /\ notBlank (snd (packSentence maxLen (chunks, cur) s)).
Proof.
  intros Hchunks Hcur Hs. unfold packSentence.
  destruct (_ <=? _)%Z; cbn [fst snd].
  - split; [exact Hchunks|].
    destruct cur as [|c0 cur]; cbn [isEmpty app]; [exact Hs|].
    destruct Hcur as [Hcur|Hcur]; [easy|].
    right. change (c0 :: cur ++ space ++ s) with ((c0 :: cur) ++ space ++ s).
    rewrite nonSpace_app. intros H. now apply app_eq_nil in H as [H _].
  - split; [|exact Hs].
    destruct cur as [|c0 cur]; cbn [isEmpty]; [exact Hchunks|].
    apply Forall_app. split; [exact Hchunks|].
    constructor; [|constructor]. split.
    + now apply notBlank_trim.
    + apply trim_idempotent.
Qed.

Lemma pack_tidy maxLen ss : forall chunks cur,
  Forall tidy chunks -> notBlank cur -> Forall notBlank ss ->
  Forall tidy (fst (fold_left (packSentence maxLen) ss (chunks, cur)))
  /\ notBlank (snd (fold_left (packSentence maxLen) ss (chunks, cur))).
Proof.
  induction ss as [|s ss IH]; intros chunks cur Hchunks Hcur Hss; cbn [fold_left].
  - now split.
  - apply Forall_cons_1 in Hss as [Hs Hss].
    destruct (packSentence_tidy maxLen chunks cur s Hchunks Hcur Hs) as [H1 H2].
    destruct (packSentence maxLen (chunks, cur) s) as [chunks1 cur1].
    now apply IH.
Qed.

Lemma packParagraph_tidy maxLen chunks p :
  Forall tidy chunks -> Forall tidy (packParagraph maxLen chunks p).
Proof.
  intros Hchunks. unfold packParagraph.
  destruct (isEmpty (trim p)); [exact Hchunks|].
  destruct (pack_tidy maxLen (split matchSentenceSep (trim p)) chunks [] Hchunks)
    as [H1 H2]; [now left|apply sentences_notBlank|].
  destruct (fold_left _ _ _) as [chunks1 cur1]. cbn [fst snd] in H1, H2.
  destruct cur1 as [|c0 cur1]; cbn [isEmpty]; [exact H1|].
  apply Forall_app. split; [exact H1|].
  constructor; [|constructor]. split.
  - now apply notBlank_trim.
  - apply trim_idempotent.
Qed.

(** X2.  No chunk is empty and no chunk starts or ends with white space:
    every chunk is its own [trim()]. *)
Theorem chunkText_chunks_tidy (text : jsstring) (maxLen : option Z) :
  Forall (fun c => c <> [] /\ trim c = c) (chunkText text maxLen).
Proof.
  unfold chunkText.
  generalize (List.filter (fun p => (0 <? length (trim p))%nat)
                          (split matchParagraphSep (trim text))).
  intros ps. change (Forall tidy (fold_left (packParagraph (maxLenOrDefault maxLen)) ps [])).
  assert (H : Forall tidy []) by constructor.
  revert H. generalize (@nil jsstring).
  induction ps as [|p ps IH]; intros chunks Hchunks; cbn [fold_left]; [exact Hchunks|].
  now apply IH, packParagraph_tidy.
Qed.

Section LengthBound.
Variable maxLen : Z.
Variable sentences : list jsstring.
Variable accepted : jsstring -> Prop.
Hypothesis accepted_short : forall c, (Z.of_nat (length c) <= maxLen)%Z -> accepted c.
Hypothesis accepted_sentence : forall s, In s sentences -> accepted (trim s).

Lemma fitsCur_trim cur :
  cur <> [] -> fitsCur maxLen sentences cur -> accepted (trim cur).
Proof.
  intros Hne [->|[Hlen|Hin]]; [congruence| |].
  - apply accepted_short. pose proof (trim_length cur). lia.
  - now apply accepted_sentence.
Qed.

Lemma pack_bound ss : forall chunks cur,
  Forall accepted chunks -> fitsCur maxLen sentences cur ->
  (forall s, In s ss -> In s sentences) ->
  Forall accepted (fst (fold_left (packSentence maxLen) ss (chunks, cur)))
  /\ fitsCur maxLen sentences (snd (fold_left (packSentence maxLen) ss (chunks, cur))).
Proof.
  induction ss as [|s ss IH]; intros chunks cur Hchunks Hcur Hss; cbn [fold_left].
  - now split.
  - unfold packSentence at 2 4.
    destruct (_ <=? _)%Z eqn:Hfit.
    + apply IH; [exact Hchunks| |intros s' Hs'; apply Hss; now right].
      right. left. apply Z.leb_le in Hfit.
      rewrite !length_app. unfold space. destruct cur; cbn [isEmpty length] in *; lia.
    + apply IH; [| |intros s' Hs'; apply Hss; now right].
      * destruct cur as [|c0 cur]; cbn [isEmpty]; [exact Hchunks|].
        apply Forall_app. split; [exact Hchunks|].
        constructor; [|constructor]. now apply fitsCur_trim.
      * right. right. apply Hss. now left.
Qed.

End LengthBound.

Lemma packParagraph_bound maxLen text chunks p :
  In p (split matchParagraphSep (trim text)) ->
  Forall (withinOrSentence maxLen text) chunks ->
  Forall (withinOrSentence maxLen text) (packParagraph maxLen chunks p).
Proof.
  intros Hp Hchunks. unfold packParagraph.
  destruct (isEmpty (trim p)); [exact Hchunks|].
  destruct (pack_bound maxLen (split matchSentenceSep (trim p))
              (withinOrSentence maxLen text)
              ltac:(intros c Hc; now left)
              ltac:(intros s Hs; right; now exists p, s)
              (split matchSentenceSep (trim p)) chunks [])
    as [H1 H2]; [exact Hchunks|now left|easy|].
  destruct (fold_left _ _ _) as [chunks1 cur1]. cbn [fst snd] in H1, H2.
  destruct (isEmpty cur1) eqn:Hcur; [exact H1|].
  apply Forall_app. split; [exact H1|].
  constructor; [|constructor].
  apply (fitsCur_trim maxLen (split matchSentenceSep (trim p)));
    [| |now destruct cur1|exact H2].
  - intros c Hc; now left.
  - intros s Hs; right; now exists p, s.
Qed.

(** X3.  A chunk is longer than [maxLen] (300 when omitted) only when it is
    a single sentence: every chunk has at most [maxLen] units or is the
    [trim()] of one piece of the sentence split of one trimmed paragraph. *)
Theorem chunkText_length_bound (text : jsstring) (maxLen : option Z) :
  Forall (fun c =>
            (Z.of_nat (length c) <= maxLenOrDefault maxLen)%Z
            \/ exists p s,
                 In p (split matchParagraphSep (trim text))
                 /\ In s (split matchSentenceSep (trim p))
                 /\ c = trim s)
         (chunkText text maxLen).
Proof.
  unfold chunkText.
  change (Forall (withinOrSentence (maxLenOrDefault maxLen) text)
                 (fold_left (packParagraph (maxLenOrDefault maxLen))
                    (List.filter (fun p => (0 <? length (trim p))%nat)
                                 (split matchParagraphSep (trim text))) [])).
  assert (Hps : forall p,
             In p (List.filter (fun p => (0 <? length (trim p))%nat)
                               (split matchParagraphSep (trim text)))
             -> In p (split matchParagraphSep (trim text))).
  { intros p Hp. now apply List.filter_In in Hp. }
  revert Hps.
  generalize (List.filter (fun p => (0 <? length (trim p))%nat)
                          (split matchParagraphSep (trim text))).
  intros ps Hps.
  assert (H : Forall (withinOrSentence (maxLenOrDefault maxLen) text) []) by constructor.
  revert H. generalize (@nil jsstring).
  induction ps as [|p ps IH]; intros chunks Hchunks; cbn [fold_left]; [exact Hchunks|].
  apply IH; [intros q Hq; apply Hps; now right|].
  apply packParagraph_bound; [apply Hps; now left|exact Hchunks].
Qed.

(** ** Blank texts; surrogate pairs in the indexer *)

Lemma nonSpace_nil_whitespace s : nonSpace s = [] -> forallb isWhiteSpace s = true.
Proof.
  induction s as [|c s IH]; [reflexivity|]. cbn.
  destruct (isWhiteSpace c); cbn; [exact IH|discriminate].
Qed.

(** X4.  [chunkText] returns no chunk exactly for a text whose [trim()] is
    empty, that is, a text of white space only; every other text gives at
    least one chunk. *)
Theorem chunkText_empty_iff (text : jsstring) (maxLen : option Z) :
  (chunkText text maxLen = [] <-> trim text = [])
  /\ (trim text = [] <-> forallb isWhiteSpace text = true).
Proof.
  assert (Hws : trim text = [] <-> forallb isWhiteSpace text = true).
  { split.
    - intros H. now apply nonSpace_nil_whitespace, trim_nil_nonSpace.
    - apply trim_whitespace_only. }
  split; [|exact Hws]. split.
  - intros H. apply Hws, nonSpace_nil_whitespace.
    transitivity (nonSpace (concat (chunkText text maxLen))); [|now rewrite H].
    unfold chunkText.
    rewrite paragraphs_nonSpace, nonblank_filter_nonSpace, split_nonSpace
      by exact matchParagraphSep_whitespace.
    symmetry. apply nonSpace_trim.
  - intros H. unfold chunkText. now rewrite H.
Qed.

Lemma low_not_high lo : isLowSurrogate lo = true -> isHighSurrogate lo = false.
Proof.
  unfold isLowSurrogate, isHighSurrogate.
  intros [H1 H2]%andb_prop. apply N.leb_le in H1.
  apply andb_false_iff. right. apply N.leb_gt. lia.
Qed.

Lemma tokensPerUnit_lookup p text j :
  (j < length text)%nat -> tokensPerUnit p text !! j = Some (tokenAt p text j).
Proof.
  intros Hj. unfold tokensPerUnit.
  change (map (tokenAt p text) (seq 0 (length text)))
    with (tokenAt p text <$> seq 0 (length text)).
  rewrite list_lookup_fmap, lookup_seq_lt by exact Hj. reflexivity.
Qed.

(** X5.  In the row the indexer fills, a surrogate pair at the units [j]
    and [j + 1] gives two tokens: at [j] the table entry of the astral code
    point, at [j + 1] the entry of the low surrogate read by itself; with an
    indexer of at most 0x10000 entries the first of them is -1. *)
Theorem fillRow_surrogate_pair (p : UnicodeProcessor.t) (text : jsstring)
    (row : list Z) (j : nat) (hi lo : N) :
  (length text <= length row)%nat ->
  text !! j = Some hi ->
  text !! S j = Some lo ->
  isHighSurrogate hi = true ->
  isLowSurrogate lo = true ->
  UnicodeProcessor.fillRow p text row !! j
  = Some (UnicodeProcessor.indexValue p
            ((hi - 0xD800) * 0x400 + (lo - 0xDC00) + 0x10000)%N)
  /\ UnicodeProcessor.fillRow p text row !! S j
     = Some (UnicodeProcessor.indexValue p lo)
  /\ ((Z.of_nat (length (UnicodeProcessor.indexer p)) <= 0x10000)%Z ->
      UnicodeProcessor.fillRow p text row !! j = Some (-1)%Z).
Proof.
  intros Hlen Hj HSj Hhi Hlo.
  pose proof (lookup_lt_Some _ _ _ HSj) as Hlt.
  rewrite fillRow_closed_form by exact Hlen.
  rewrite !lookup_app_l by (unfold tokensPerUnit; rewrite length_map, length_seq; lia).
  rewrite !tokensPerUnit_lookup by lia.
  assert (H1 : tokenAt p text j
               = UnicodeProcessor.indexValue p
                   ((hi - 0xD800) * 0x400 + (lo - 0xDC00) + 0x10000)%N).
  { unfold tokenAt, codePointAt. now rewrite Hj, Hhi, HSj, Hlo. }
  assert (H2 : tokenAt p text (S j) = UnicodeProcessor.indexValue p lo).
  { unfold tokenAt, codePointAt. now rewrite HSj, (low_not_high lo Hlo). }
  rewrite H1, H2. repeat apply conj; try reflexivity.
  intros Hidx. f_equal. unfold UnicodeProcessor.indexValue.
  destruct (UnicodeProcessor.indexer p !! _) eqn:E; [|reflexivity].
  apply lookup_lt_Some in E.
  unfold isHighSurrogate in Hhi. apply andb_prop in Hhi as [Hhi _].
  apply N.leb_le in Hhi. lia.
Qed.

(** X5 at U+1F600 and an indexer of three entries. *)
Lemma fillRow_surrogate_pair_witness :
  UnicodeProcessor.fillRow {| UnicodeProcessor.indexer := [5; 6; 7]%Z |}
    [0xD83D; 0xDE00]%N [0; 0]%Z !! 0%nat
  = Some (UnicodeProcessor.indexValue {| UnicodeProcessor.indexer := [5; 6; 7]%Z |} 0x1F600%N)
  /\ UnicodeProcessor.fillRow {| UnicodeProcessor.indexer := [5; 6; 7]%Z |}
       [0xD83D; 0xDE00]%N [0; 0]%Z !! 1%nat
     = Some (UnicodeProcessor.indexValue {| UnicodeProcessor.indexer := [5; 6; 7]%Z |} 0xDE00%N).
Proof.
  destruct (fillRow_surrogate_pair {| UnicodeProcessor.indexer := [5; 6; 7]%Z |}
              [0xD83D; 0xDE00]%N [0; 0]%Z 0 0xD83D%N 0xDE00%N
              ltac:(cbn; lia) eq_refl eq_refl eq_refl eq_refl) as (H1 & H2 & _).
  split; [exact H1|exact H2].
Defined.

(** ** Mask builder and latent sampler in full *)

Lemma fold_left_Zmax_spec l : forall x,
  In (fold_left Z.max l x) (x :: l)
  /\ Forall (fun y => (y <= fold_left Z.max l x)%Z) (x :: l).
Proof.
  induction l as [|y l IH]; intros x; cbn [fold_left].
  - split; [now left|]. constructor; [lia|constructor].
  - destruct (IH (Z.max x y)) as [Hin Hall].
    apply Forall_cons_1 in Hall as [Hxy Hall].
    split.
    + destruct Hin as [Hin|Hin]; [|now right; right].
      destruct (Z.max_spec x y) as [[_ E]|[_ E]]; rewrite E in Hin |- *.
      * right. now left.
      * now left.
    + constructor; [lia|]. constructor; [lia|exact Hall].
Qed.

(** X6.  With [maxLen] omitted the mask is as wide as the largest length:
    for a list of lengths in [0, 2^32) that is not empty, the row of each
    length holds that many ones and then zeros up to the maximum of the
    list. *)
Theorem lengthToMask_default_width (lengths : list Z) :
  lengths <> [] ->
  Forall (fun len => (0 <= len < 2 ^ 32)%Z) lengths ->
  exists m,
    mathMax lengths = Int m
    /\ In m lengths
    /\ Forall (fun len => (len <= m)%Z) lengths
    /\ lengthToMask lengths None
       = Ok (map (fun len => [maskRow (Z.to_nat len) (Z.to_nat m)]) lengths).
Proof.
  intros Hne Hrange. destruct lengths as [|x l]; [congruence|].
  destruct (fold_left_Zmax_spec l x) as [Hin Hall].
  exists (fold_left Z.max l x). repeat split; try assumption.
  change (lengthToMask (x :: l) None)
    with (lengthToMask (x :: l) (Some (Int (fold_left Z.max l x)))).
  rewrite lengthToMask_ok.
  - f_equal. apply map_ext_in. intros len Hlen.
    rewrite List.Forall_forall in Hall. specialize (Hall len Hlen).
    now rewrite Z.min_l.
  - rewrite List.Forall_forall in Hrange. now apply Hrange.
Qed.

(** X6 at the lengths 2 and 3. *)
Lemma lengthToMask_default_width_witness :
  exists m,
    mathMax [2; 3]%Z = Int m
    /\ In m [2; 3]%Z
    /\ Forall (fun len => (len <= m)%Z) [2; 3]%Z
    /\ lengthToMask [2; 3]%Z None
       = Ok (map (fun len => [maskRow (Z.to_nat len) (Z.to_nat m)]) [2; 3]%Z).
Proof.
  apply lengthToMask_default_width; [discriminate|].
  repeat constructor; lia.
Defined.

(** X7.  [lengthToMask] throws nothing but a RangeError, and that exactly
    when there is at least one length and the width is not an array length
    (negative, or 2^32 and more); otherwise it returns one row per length,
    with [min(len, maxLen)] ones: also for no length under a bad width. *)
Theorem lengthToMask_range_error_iff (lengths : list Z) (m : Z) :
  (lengthToMask lengths (Some (Int m)) = Err RangeError
   <-> lengths <> [] /\ ~ (0 <= m < 2 ^ 32)%Z)
  /\ (lengthToMask lengths (Some (Int m)) <> Err RangeError
      <-> lengthToMask lengths (Some (Int m))
          = Ok (map (fun len => [maskRow (Z.to_nat (Z.min len m)) (Z.to_nat m)]) lengths)).
Proof.
  destruct lengths as [|len lengths].
  - cbn. split; split; easy.
  - destruct (Z_le_dec 0 m) as [H0|H0]; [destruct (Z_lt_dec m (2 ^ 32)) as [H1|H1]|].
    + rewrite lengthToMask_ok by lia.
      split; split; solve [easy | intros [_ H]; lia].
    + rewrite lengthToMask_range_error by lia.
      split; split; solve [easy | intros _; split; [easy|lia]].
    + rewrite lengthToMask_range_error by lia.
      split; split; solve [easy | intros _; split; [easy|lia]].
Qed.










(** ** Session runs of [infer] and [call] *)

Lemma map_seq_from {A} (g : nat -> A) start n :
  map g (seq start n) = map (fun t => g (start + t)%nat) (seq 0 n).
Proof.
  rewrite <- (Nat.add_0_r start) at 1.
  rewrite <- fmap_add_seq. unfold fmap, list_fmap. fold (@map nat nat (Nat.add start)).
  now rewrite map_map.
Qed.

Lemma concat_map_seq {A} (g : nat -> A) n len :
  concat (map (fun b => map (fun t => g (b * len + t)%nat) (seq 0 len)) (seq 0 n))
  = map g (seq 0 (n * len)).
Proof.
  induction n as [|n IH]; [reflexivity|].
  rewrite seq_S, map_app, concat_app, IH. cbn [map concat plus].
  replace (S n * len)%nat with (n * len + len)%nat by lia.
  rewrite seq_app, map_app, app_nil_r. f_equal.
  now rewrite (map_seq_from g (0 + n * len)).
Qed.

Lemma map_valueAt data : forall n,
  map (valueAt data) (seq 0 n) = take n data ++ replicate (n - length data) 0%Q.
Proof.
  induction data as [|x data IH]; intros n.
  - rewrite take_nil, Nat.sub_0_r. cbn [app length].
    induction n as [|n IHn]; [reflexivity|].
    rewrite seq_S, map_app, IHn. cbn [map plus].
    change (valueAt [] n) with 0%Q.
    now rewrite <- replicate_cons_app.
  - destruct n as [|n]; [reflexivity|].
    cbn [seq map take length Nat.sub replicate app]. f_equal.
    rewrite map_seq_from. cbn [plus]. exact (IH n).
Qed.

(** X9.  The array the denoising loop rebuilds from the estimator's flat
    output, flattened again for the next run, is that output cut or
    zero-filled to [bsz * latentDim * latentLen] values: the rebuilding is
    row-major and keeps every value that fits. *)
Theorem reshape_flat (bsz latentDim latentLen : nat) (denoisedData : list Q) :
  concat (concat (TextToSpeech.reshape bsz latentDim latentLen denoisedData))
  = take (bsz * latentDim * latentLen) denoisedData
    ++ replicate (bsz * latentDim * latentLen - length denoisedData) 0%Q.
Proof.
  unfold TextToSpeech.reshape.
  change (concat (concat (map (fun b => map (fun d => map (fun t =>
            valueAt denoisedData ((b * latentDim + d) * latentLen + t))
            (seq 0 latentLen)) (seq 0 latentDim)) (seq 0 bsz)))
          = take (bsz * latentDim * latentLen) denoisedData
            ++ replicate (bsz * latentDim * latentLen - length denoisedData) 0%Q).
  rewrite (concat_map_seq
             (fun k => map (fun t => valueAt denoisedData (k * latentLen + t))
                           (seq 0 latentLen))).
  rewrite (concat_map_seq (valueAt denoisedData)).
  apply map_valueAt.
Qed.

Lemma textRuns_world style idsT maskT w :
  {| calls := (calls w ++ [RunDurationPredictor idsT (dp style) maskT])
              ++ [RunTextEncoder idsT (ttl style) maskT];
     draws := draws w;
     globalStyleCache := globalStyleCache w |}
  = addCalls (textRuns style idsT maskT) w.
Proof. unfold addCalls, textRuns. now rewrite <- app_assoc. Qed.

(** [prepare] from its result: the text tensors, what the record holds,
    and the world it leaves. *)
Lemma prepare_ok_inv host tts textList style speed w p w1 :
  TextToSpeech.prepare host tts textList style speed w = (Ok p, w1) ->
  exists idsT maskT n,
    TextToSpeech.textTensors host tts textList = Ok (idsT, maskT)
    /\ TextToSpeech.p_text_mask p = maskT
    /\ TextToSpeech.p_text_emb p = TextToSpeech.textEncOrt tts idsT (ttl style) maskT
    /\ TextToSpeech.scaleDuration speed (TextToSpeech.dpOrt tts idsT (dp style) maskT)
       = Some (TextToSpeech.p_duration p)
    /\ w1 = bumpDraws n (addCalls (textRuns style idsT maskT) w).
Proof.
  unfold TextToSpeech.prepare, bind, lift.
  destruct (TextToSpeech.textTensors host tts textList) as [[idsT maskT]|e]; [|discriminate].
  cbn [record fst snd].
  destruct (TextToSpeech.scaleDuration speed _) as [duration|] eqn:Es; [|discriminate].
  unfold ret at 1.
  match goal with
  | |- context [TextToSpeech.sampleNoisyLatent ?h ?d ?a ?b ?c ?e ?w0] =>
      destruct (TextToSpeech.sampleNoisyLatent h d a b c e w0) as [[[xt mask]|e'] w'] eqn:E
  end; [|discriminate].
  apply sampleNoisyLatent_world in E as [n ->].
  unfold ret. intros [= <- <-]. exists idsT, maskT, n. cbn [TextToSpeech.p_text_mask
    TextToSpeech.p_text_emb TextToSpeech.p_duration].
  split; [reflexivity|]. split; [reflexivity|]. split; [reflexivity|].
  split; [exact Es|]. now rewrite textRuns_world.
Qed.


Lemma infer_ok_inv host tts textList style totalStep speed w r w' :
  TextToSpeech.infer host tts textList style totalStep speed w = (Ok r, w') ->
  exists p w1, TextToSpeech.prepare host tts textList style speed w = (Ok p, w1).
Proof.
  intros H.
  destruct (TextToSpeech.prepare host tts textList style speed w) as [[p|e] w1] eqn:E.
  - now exists p, w1.
  - unfold TextToSpeech.infer in H. rewrite (bind_err _ _ _ _ _ E) in H. discriminate.
Qed.


Lemma feedsOfLoop_constant tts bsz lf steps : forall xt,
  Forall (fun f => text_emb f = TextToSpeech.lf_text_emb lf
                   /\ est_style_ttl f = TextToSpeech.lf_style_ttl lf
                   /\ latent_mask f = TextToSpeech.lf_latent_mask lf
                   /\ est_text_mask f = TextToSpeech.lf_text_mask lf)
         (feedsOfLoop tts bsz lf steps xt).
Proof.
  induction steps as [|step steps IH]; intros xt; cbn [feedsOfLoop]; constructor.
  - now cbn.
  - apply IH.
Qed.

(** X10.  An [infer] that returns has run, in this order and nothing else:
    the duration predictor once, the text encoder once on the same text
    tensors, the vector estimator [totalStep] times (not at all for a step
    count of zero or less), each time with the text encoder's output, the
    style and the text mask, and the vocoder once, whose output is the
    waveform returned; the style cache is left as it was. *)
Theorem infer_session_order (host : Host) (tts : TextToSpeech.t)
    (textList : list jsstring) (style : Style) (totalStep : Z) (speed : Q)
    (w w' : World) (wav duration : list Q) :
  TextToSpeech.infer host tts textList style totalStep speed w = (Ok (wav, duration), w') ->
  exists idsT maskT feeds latent,
    TextToSpeech.textTensors host tts textList = Ok (idsT, maskT)
    /\ calls w'
       = calls w
         ++ [RunDurationPredictor idsT (dp style) maskT;
             RunTextEncoder idsT (ttl style) maskT]
         ++ map RunVectorEstimator feeds
         ++ [RunVocoder latent]
    /\ length feeds = Z.to_nat totalStep
    /\ Forall (fun f =>
                 text_emb f = TextToSpeech.textEncOrt tts idsT (ttl style) maskT
                 /\ est_style_ttl f = ttl style
                 /\ est_text_mask f = maskT)
              feeds
    /\ wav = TextToSpeech.vocoderOrt tts latent
    /\ globalStyleCache w' = globalStyleCache w.
Proof.
  intros H.
  destruct (infer_ok_inv _ _ _ _ _ _ _ _ _ H) as (p & w1 & Hp).
  rewrite (infer_after_prepare _ _ _ _ totalStep _ _ _ _ Hp) in H.
  destruct (prepare_ok_inv _ _ _ _ _ _ _ _ Hp) as (idsT & maskT & n & Ht & Hm & He & _ & ->).
  injection H as Hwav _ <-.
  eexists idsT, maskT, _, _. split; [exact Ht|].
  split; [|split; [|split; [|split]]].
  - cbn. rewrite <- !app_assoc. reflexivity.
  - now rewrite length_feedsOfLoop, length_seq.
  - eapply Forall_impl; [apply feedsOfLoop_constant|].
    cbn. intros f (H1 & H2 & _ & H4). now rewrite H1, H2, H4, He, Hm.
  - now rewrite <- Hwav.
  - reflexivity.
Qed.

(** X10 at one text and two steps. *)
Lemma infer_session_order_witness :
  exists idsT maskT feeds latent,
    calls (snd (TextToSpeech.infer exampleHost exampleTts [js "Hello there."] exampleStyle
                  2 1 emptyWorld))
    = [RunDurationPredictor idsT (dp exampleStyle) maskT;
       RunTextEncoder idsT (ttl exampleStyle) maskT]
      ++ map RunVectorEstimator feeds ++ [RunVocoder latent]
    /\ length feeds = 2%nat.
Proof.
  destruct (TextToSpeech.infer exampleHost exampleTts [js "Hello there."] exampleStyle
              2 1 emptyWorld) as [[[wav duration]|e] w'] eqn:E; [|vm_compute in E; discriminate].
  destruct (infer_session_order _ _ _ _ _ _ _ _ _ _ E)
    as (idsT & maskT & feeds & latent & _ & Hc & Hl & _).
  exists idsT, maskT, feeds, latent. split; [exact Hc|exact Hl].
Defined.



Lemma estimatorRuns_app a b : estimatorRuns (a ++ b) = estimatorRuns a ++ estimatorRuns b.
Proof. apply flat_map_app. Qed.

Lemma estimatorRuns_feeds feeds : estimatorRuns (map RunVectorEstimator feeds) = feeds.
Proof. induction feeds as [|f feeds IH]; [reflexivity|]. cbn. now f_equal. Qed.

(** What one [infer] that returns adds to the record of session runs. *)
Lemma infer_runs_count host tts textList style totalStep speed w r w' :
  TextToSpeech.infer host tts textList style totalStep speed w = (Ok r, w') ->
  length (calls w') = (length (calls w) + (3 + Z.to_nat totalStep))%nat
  /\ length (estimatorRuns (calls w'))
     = (length (estimatorRuns (calls w)) + Z.to_nat totalStep)%nat
  /\ globalStyleCache w' = globalStyleCache w.
Proof.
  intros H.
  destruct (infer_ok_inv _ _ _ _ _ _ _ _ _ H) as (p & w1 & Hp).
  rewrite (infer_after_prepare _ _ _ _ totalStep _ _ _ _ Hp) in H.
  destruct (prepare_ok_inv _ _ _ _ _ _ _ _ Hp) as (idsT & maskT & n & _ & _ & _ & _ & ->).
  injection H as _ <-. cbn [calls addCalls bumpDraws globalStyleCache textRuns].
  rewrite !estimatorRuns_app, estimatorRuns_feeds, !length_app, length_map,
    length_feedsOfLoop, length_seq.
  cbn. repeat split; lia.
Qed.

Lemma appendChunk_ok_inv host tts style totalStep speed sil st chunk w st' w' :
  TextToSpeech.appendChunk host tts style totalStep speed sil st chunk w = (Ok st', w') ->
  exists wav duration,
    TextToSpeech.infer host tts [chunk] style totalStep speed w = (Ok (wav, duration), w').
Proof.
  unfold TextToSpeech.appendChunk, bind. destruct st as [wavCat durCat].
  destruct (TextToSpeech.infer host tts [chunk] style totalStep speed w)
    as [[[wav duration]|e] w1]; [|discriminate].
  destruct (isEmpty wavCat).
  - unfold ret. intros [= _ <-]. now exists wav, duration.
  - unfold lift. destruct (newArray _ _); [|discriminate].
    unfold ret. intros [= _ <-]. now exists wav, duration.
Qed.

Lemma appendChunk_loop_count host tts style totalStep speed sil chunks :
  forall st w st' w',
    foldM (TextToSpeech.appendChunk host tts style totalStep speed sil) chunks st w
    = (Ok st', w') ->
    length (calls w')
    = (length (calls w) + (3 + Z.to_nat totalStep) * length chunks)%nat
    /\ length (estimatorRuns (calls w'))
       = (length (estimatorRuns (calls w)) + Z.to_nat totalStep * length chunks)%nat
    /\ globalStyleCache w' = globalStyleCache w.
Proof.
  induction chunks as [|chunk chunks IH]; intros st w st' w'; cbn [foldM length].
  - unfold ret. intros [= _ <-]. repeat split; lia.
  - unfold bind at 1.
    destruct (TextToSpeech.appendChunk host tts style totalStep speed sil st chunk w)
      as [[st1|e] w1] eqn:E; [|discriminate].
    intros H. apply IH in H as (H1 & H2 & H3).
    apply appendChunk_ok_inv in E as (wav & duration & E).
    apply infer_runs_count in E as (E1 & E2 & E3).
    rewrite H1, H2, H3, E1, E2, E3. repeat split; lia.
Qed.

(** X12.  A [call] that returns has made [3 + totalStep] session runs per
    chunk of the text, [totalStep] of them of the vector estimator (none
    for a step count of zero or less), has left the style cache as it was,
    and reports one duration. *)
Theorem call_session_runs (host : Host) (tts : TextToSpeech.t) (text : jsstring)
    (style : Style) (totalStep : Z) (speed silenceDuration : Q) (w w' : World)
    (wav duration : list Q) :
  TextToSpeech.call host tts text style totalStep speed silenceDuration w
  = (Ok (wav, duration), w') ->
  length (calls w')
  = (length (calls w) + (3 + Z.to_nat totalStep) * length (chunkText text None))%nat
  /\ length (estimatorRuns (calls w'))
     = (length (estimatorRuns (calls w))
        + Z.to_nat totalStep * length (chunkText text None))%nat
  /\ globalStyleCache w' = globalStyleCache w
  /\ length duration = 1%nat.
Proof.
  unfold TextToSpeech.call.
  destruct (tdims (ttl style)) as [|[| [| |] |] rest]; try discriminate.
  unfold bind.
  destruct (foldM _ _ _ w) as [[[wavCat durCat]|e] w1] eqn:E; [|discriminate].
  unfold ret. intros [= _ <- <-].
  apply appendChunk_loop_count in E as (H1 & H2 & H3).
  now repeat split.
Qed.

(** X12 at two chunks and two steps: ten runs, four of the estimator. *)
Lemma call_session_runs_witness :
  length (calls (snd (TextToSpeech.call exampleHost exampleTts twoLongParagraphs
                        exampleStyle 2 1 (3 # 10) emptyWorld)))
  = 10%nat
  /\ length (estimatorRuns
               (calls (snd (TextToSpeech.call exampleHost exampleTts twoLongParagraphs
                              exampleStyle 2 1 (3 # 10) emptyWorld))))
     = 4%nat.
Proof.
  destruct (TextToSpeech.call exampleHost exampleTts twoLongParagraphs exampleStyle 2 1
              (3 # 10) emptyWorld) as [[[wav duration]|e] w'] eqn:E;
    [|vm_compute in E; discriminate].
  destruct (call_session_runs _ _ _ _ _ _ _ _ _ _ _ E) as (H1 & H2 & _).
  split; [exact H1|exact H2].
Defined.

Lemma appendChunk_silence_error host tts style totalStep speed sil wavCat durCat chunk w
    wav duration w1 :
  wavCat <> [] ->
  ~ (0 <= Qfloor (sil * inject_Z (TextToSpeech.sampleRate tts)) < 2 ^ 32)%Z ->
  TextToSpeech.infer host tts [chunk] style totalStep speed w = (Ok (wav, duration), w1) ->
  TextToSpeech.appendChunk host tts style totalStep speed sil (wavCat, durCat) chunk w
  = (Err RangeError, w1).
Proof.
  intros Hne Hsil H. unfold TextToSpeech.appendChunk.
  rewrite (bind_ok _ _ _ _ _ H). destruct wavCat; [congruence|]. cbn [isEmpty].
  unfold bind, lift. now rewrite newArray_range_error.
Qed.

(** X13.  With two chunks or more, a first waveform that is not empty and
    a silence whose sample count [floor(silenceDuration * sampleRate)] is
    negative or 2^32 and more, [call] throws a RangeError, and does so only
    after the sessions have run for the second chunk. *)
Theorem call_invalid_silence (host : Host) (tts : TextToSpeech.t) (text : jsstring)
    (style : Style) (totalStep : Z) (speed silenceDuration : Q) (w w1 w2 : World)
    (rest : list Z) (chunk1 chunk2 : jsstring) (more : list jsstring)
    (wav1 duration1 wav2 duration2 : list Q) :
  tdims (ttl style) = 1%Z :: rest ->
  chunkText text None = chunk1 :: chunk2 :: more ->
  TextToSpeech.infer host tts [chunk1] style totalStep speed w = (Ok (wav1, duration1), w1) ->
  wav1 <> [] ->
  TextToSpeech.infer host tts [chunk2] style totalStep speed w1 = (Ok (wav2, duration2), w2) ->
  ~ (0 <= Qfloor (silenceDuration * inject_Z (TextToSpeech.sampleRate tts)) < 2 ^ 32)%Z ->
  TextToSpeech.call host tts text style totalStep speed silenceDuration w
  = (Err RangeError, w2).
Proof.
  intros Hdims Hchunks H1 Hne H2 Hsil. unfold TextToSpeech.call.
  rewrite Hdims, Hchunks. cbn [foldM].
  erewrite bind_err; [reflexivity|].
  rewrite (bind_ok _ _ _ _ _ (appendChunk_first _ _ _ _ _ _ _ _ _ _ _ _ H1)).
  erewrite bind_err; [reflexivity|].
  exact (appendChunk_silence_error _ _ _ _ _ _ _ _ _ _ _ _ _ Hne Hsil H2).
Qed.

(** X13 at two chunks and a silence of -1 s. *)
Lemma call_invalid_silence_witness :
  exists w2,
    TextToSpeech.call exampleHost exampleTts twoLongParagraphs exampleStyle 2 1 (-1)
                      emptyWorld
    = (Err RangeError, w2)
    /\ length (calls w2) = 10%nat.
Proof.
  pose (r1 := TextToSpeech.infer exampleHost exampleTts [js "Hello there."] exampleStyle 2 1
                emptyWorld).
  pose (r2 := TextToSpeech.infer exampleHost exampleTts [js "Hello there."] exampleStyle 2 1
                (snd r1)).
  exists (snd r2). split; [|vm_compute; reflexivity].
  apply (call_invalid_silence exampleHost exampleTts twoLongParagraphs exampleStyle 2 1 (-1)
           emptyWorld (snd r1) (snd r2) [1; 2]%Z (js "Hello there.") (js "Hello there.") []
           [1%Q] [3 # 10] [1%Q] [3 # 10]).
  - reflexivity.
  - vm_compute. reflexivity.
  - vm_compute. reflexivity.
  - discriminate.
  - vm_compute. reflexivity.
  - vm_compute. intros [H _]. now apply H.
Defined.

(** ** Shapes of the tensors fed to the sessions *)

Lemma length_concat_uniform {A} n (ls : list (list A)) :
  Forall (fun l => length l = n) ls -> length (concat ls) = (length ls * n)%nat.
Proof.
  induction 1 as [|l ls Hl _ IH]; [reflexivity|].
  cbn [concat length]. rewrite length_app, IH, Hl. lia.
Qed.

Lemma regular_flat {A} bsz dimVal len (xt : list (list (list A))) :
  regular bsz dimVal len xt -> length (concat (concat xt)) = (bsz * dimVal * len)%nat.
Proof.
  intros [Hb Hxt].
  rewrite (length_concat_uniform len).
  - rewrite (length_concat_uniform dimVal), Hb; [reflexivity|].
    eapply Forall_impl; [exact Hxt|]. now intros batch [H _].
  - apply Forall_concat. eapply Forall_impl; [exact Hxt|]. now intros batch [_ H].
Qed.

Lemma regular_shape bsz dimVal len (xt : list (list (list Q))) :
  regular bsz dimVal len xt ->
  fold_right Z.mul 1%Z (TextToSpeech.shapeOf bsz xt) = Z.of_nat (bsz * dimVal * len).
Proof.
  intros [Hb Hxt]. unfold TextToSpeech.shapeOf. cbn [fold_right].
  destruct xt as [|batch xt]; cbn [firstOr length] in *.
  - subst bsz. reflexivity.
  - apply Forall_cons_1 in Hxt as [[Hd Hrows] _].
    destruct batch as [|row batch]; cbn [firstOr length] in *.
    + subst dimVal. lia.
    + apply Forall_cons_1 in Hrows as [Hl _]. subst. cbn [length]. lia.
Qed.

Lemma wellShaped_latentTensor bsz dimVal len xt :
  regular bsz dimVal len xt -> wellShaped (TextToSpeech.latentTensor bsz xt).
Proof.
  intros H. unfold wellShaped, TextToSpeech.latentTensor. cbn [tdata tdims].
  now rewrite (regular_flat _ _ _ _ H), (regular_shape _ _ _ _ H).
Qed.

Lemma regular_reshape bsz latentDim latentLen denoisedData :
  regular bsz latentDim latentLen
          (TextToSpeech.reshape bsz latentDim latentLen denoisedData).
Proof.
  unfold regular, TextToSpeech.reshape. split; [now rewrite length_map, length_seq|].
  apply List.Forall_forall. intros batch (b & <- & _)%in_map_iff.
  split; [now rewrite length_map, length_seq|].
  apply List.Forall_forall. intros row (d & <- & _)%in_map_iff.
  now rewrite length_map, length_seq.
Qed.

Lemma wellShaped_nextLatent tts bsz lf xt step :
  wellShaped (TextToSpeech.latentTensor bsz (nextLatent tts bsz lf xt step)).
Proof. eapply wellShaped_latentTensor, regular_reshape. Qed.

Lemma wellShaped_filledTensor bsz v : wellShaped (TextToSpeech.filledTensor bsz v).
Proof.
  unfold wellShaped, TextToSpeech.filledTensor. cbn. rewrite length_replicate. lia.
Qed.

Lemma feedsOfLoop_wellShaped tts bsz lf steps : forall xt,
  wellShaped (TextToSpeech.latentTensor bsz xt) ->
  wellShaped (TextToSpeech.lf_latent_mask lf) ->
  wellShaped (TextToSpeech.lf_text_mask lf) ->
  wellShaped (TextToSpeech.lf_total_step lf) ->
  Forall (fun f => wellShapedCall (RunVectorEstimator f)) (feedsOfLoop tts bsz lf steps xt)
  /\ wellShaped (TextToSpeech.latentTensor bsz (fold_left (nextLatent tts bsz lf) steps xt)).
Proof.
  induction steps as [|step steps IH]; intros xt Hxt Hm Ht Hs; cbn [feedsOfLoop fold_left].
  - split; [constructor|exact Hxt].
  - destruct (IH (nextLatent tts bsz lf xt step) (wellShaped_nextLatent _ _ _ _ _) Hm Ht Hs)
      as [H1 H2].
    split; [|exact H2]. constructor; [|exact H1].
    cbn. repeat apply conj; try assumption. apply wellShaped_filledTensor.
Qed.

Lemma regular_applyMask bsz dimVal len (noise mask : list (list (list Q))) :
  regular bsz dimVal len noise -> regular bsz dimVal len (TextToSpeech.applyMask noise mask).
Proof.
  intros [Hb Hxt]. unfold regular, TextToSpeech.applyMask.
  split; [now rewrite length_imap|].
  apply Forall_lookup. intros b batch' Hb'.
  apply list_lookup_imap_Some in Hb' as (batch & Hbatch & ->).
  rewrite Forall_lookup in Hxt. destruct (Hxt b batch Hbatch) as [Hd Hrows].
  split; [now rewrite length_map|].
  apply List.Forall_forall. intros row' (row & <- & Hin)%in_map_iff.
  rewrite length_imap. rewrite List.Forall_forall in Hrows. now apply Hrows.
Qed.

Lemma concat_singletons {A} (rows : list A) : concat (map (fun r => [r]) rows) = rows.
Proof. induction rows as [|r rows IH]; [reflexivity|]. cbn. now f_equal. Qed.

Lemma wellShaped_maskTensor (rows : list (list Q)) bsz len :
  length rows = bsz ->
  Forall (fun r => length r = len) rows ->
  wellShaped
    (mkTensor (concat (concat (map (fun r => [r]) rows)))
              [Z.of_nat bsz; 1%Z;
               Z.of_nat (length (firstOr [] (firstOr [] (map (fun r => [r]) rows))))]).
Proof.
  intros Hb Hrows. unfold wellShaped. cbn [tdata tdims fold_right].
  rewrite concat_singletons, (length_concat_uniform len _ Hrows), Hb.
  destruct rows as [|r rows]; cbn [map firstOr length] in *.
  - subst bsz. reflexivity.
  - apply Forall_cons_1 in Hrows as [-> _]. lia.
Qed.

Lemma length_maskRow ones len : (ones <= len)%nat -> length (maskRow ones len) = len.
Proof. intros H. unfold maskRow. rewrite length_app, !length_replicate. lia. Qed.

Lemma lengthToMask_ok_inv lengths m mask :
  lengthToMask lengths (Some (Int m)) = Ok mask ->
  exists rows,
    mask = map (fun r => [r]) rows
    /\ length rows = length lengths
    /\ Forall (fun r => length r = Z.to_nat m) rows.
Proof.
  intros H. destruct lengths as [|len lengths].
  - injection H as <-. exists []. repeat split. constructor.
  - destruct (Z_le_dec 0 m) as [H0|H0]; [destruct (Z_lt_dec m (2 ^ 32)) as [H1|H1]|];
      try (rewrite lengthToMask_range_error in H by lia; discriminate).
    rewrite lengthToMask_ok in H by lia. injection H as <-.
    exists (map (fun len => maskRow (Z.to_nat (Z.min len m)) (Z.to_nat m)) (len :: lengths)).
    split; [now rewrite map_map|]. split; [now rewrite length_map|].
    apply List.Forall_forall. intros r (l & <- & _)%in_map_iff.
    apply length_maskRow. lia.
Qed.

Lemma sampleNoisyLatent_ok_inv host duration sr base compress ld w xt mask w1 :
  TextToSpeech.sampleNoisyLatent host duration sr base compress ld w = (Ok (xt, mask), w1) ->
  exists dimVal len rows,
    regular (length duration) dimVal len xt
    /\ mask = map (fun r => [r]) rows
    /\ length rows = length duration
    /\ Forall (fun r => length r = len) rows.
Proof.
  destruct duration as [|d0 ds].
  - intros [= <- <- _]. exists 0%nat, 0%nat, []. repeat split; constructor.
  - destruct (Z.eq_dec (base * compress)%Z 0%Z) as [E|E].
    + unfold TextToSpeech.sampleNoisyLatent. rewrite E. discriminate.
    + destruct (sampleNoisyLatent_unfold host d0 ds sr base compress ld w E)
        as (noise & n & [Hb Hnoise] & ->).
      destruct (lengthToMask _ _) as [mask0|e] eqn:Em; [|discriminate].
      intros [= <- <- _].
      apply lengthToMask_ok_inv in Em as (rows & -> & Hrows & Hlen).
      eexists _, _, rows. split; [|split; [reflexivity|split; [|exact Hlen]]].
      * apply regular_applyMask. split; [exact Hb|exact Hnoise].
      * now rewrite Hrows, !length_map.
Qed.

Lemma mapR_err {A B} (f : A -> result B) x l e : f x = Err e -> mapR f (x :: l) = Err e.
Proof. intros H. cbn. now rewrite H. Qed.

(** The rows the indexer returns all have the length of the longest text,
    and there is one per text. *)
Lemma call_ok_inv normalize p textList textIds textMask :
  UnicodeProcessor.call normalize p textList = Ok (textIds, textMask) ->
  exists len rows,
    length textIds = length textList
    /\ Forall (fun row => length row = len) textIds
    /\ textMask = map (fun r => [r]) rows
    /\ length rows = length textList
    /\ Forall (fun r => length r = len) rows.
Proof.
  destruct textList as [|t0 ts].
  - intros [= <- <-]. exists 0%nat, []. repeat split; constructor.
  - unfold UnicodeProcessor.call, UnicodeProcessor.getTextMask.
    set (texts := map normalize (t0 :: ts)).
    assert (Ht : texts <> []) by discriminate.
    rewrite (mathMax_lengths texts Ht).
    set (maxLen := list_max (map length texts)).
    destruct (Z_lt_dec (Z.of_nat maxLen) (2 ^ 32)) as [Hr|Hr].
    + assert (Hrange : (0 <= Z.of_nat maxLen < 2 ^ 32)%Z) by lia.
      rewrite (mapR_ok _ (fun t => tokensPerUnit p t ++ replicate (maxLen - length t) 0%Z)).
      * unfold bindR. rewrite (lengthToMask_ok _ _ Hrange).
        intros Hcall.
        assert (Hids : textIds
                       = map (fun t => tokensPerUnit p t
                                       ++ replicate (maxLen - length t) 0%Z) texts)
          by congruence.
        assert (Hmask : textMask
                        = map (fun len => [maskRow (Z.to_nat (Z.min len (Z.of_nat maxLen)))
                                                   (Z.to_nat (Z.of_nat maxLen))])
                              (map (fun text => Z.of_nat (length text)) texts))
          by congruence.
        clear Hcall. subst textIds textMask.
        exists maxLen,
          (map (fun len => maskRow (Z.to_nat (Z.min len (Z.of_nat maxLen)))
                                   (Z.to_nat (Z.of_nat maxLen)))
               (map (fun text => Z.of_nat (length text)) texts)).
        repeat apply conj.
        -- subst texts. rewrite !length_map. reflexivity.
        -- apply List.Forall_forall. intros row (t & <- & Hin)%in_map_iff.
           pose proof (length_le_list_max texts t Hin). fold maxLen in H.
           unfold tokensPerUnit.
           rewrite length_app, length_map, length_seq, length_replicate. lia.
        -- now rewrite !map_map.
        -- subst texts. rewrite !length_map. reflexivity.
        -- apply List.Forall_forall. intros r (l & <- & _)%in_map_iff.
           rewrite Nat2Z.id. apply length_maskRow. lia.
      * intros t Hin. rewrite (newArray_ok _ _ Hrange). cbn [bindR]. f_equal.
        pose proof (length_le_list_max texts t Hin). fold maxLen in H.
        rewrite fillRow_closed_form by (rewrite length_replicate; lia).
        now rewrite drop_replicate, Nat2Z.id.
    + subst texts. cbn [map]. erewrite mapR_err; [discriminate|].
      rewrite newArray_range_error by lia. reflexivity.
Qed.

Lemma textTensors_wellShaped host tts textList idsT maskT :
  TextToSpeech.textTensors host tts textList = Ok (idsT, maskT) ->
  wellShaped idsT /\ wellShaped maskT.
Proof.
  unfold TextToSpeech.textTensors.
  destruct (UnicodeProcessor.call _ _ textList) as [[textIds textMask]|e] eqn:E;
    [|discriminate].
  cbn [bindR]. intros [= <- <-].
  apply call_ok_inv in E as (len & rows & Hn & Hids & -> & Hrn & Hrows).
  split.
  - unfold wellShaped. cbn [tdata tdims fold_right].
    rewrite (length_concat_uniform len _ Hids), Hn.
    destruct textIds as [|row textIds]; cbn [firstOr length] in *.
    + rewrite <- Hn. reflexivity.
    + apply Forall_cons_1 in Hids as [-> _]. lia.
  - exact (wellShaped_maskTensor rows _ len Hrn Hrows).
Qed.

Lemma scaleDuration_length speed duration scaled :
  TextToSpeech.scaleDuration speed duration = Some scaled ->
  length scaled = length duration.
Proof.
  unfold TextToSpeech.scaleDuration. destruct duration as [|d ds].
  - now intros [= <-].
  - destruct (Qeq_bool speed 0); [discriminate|]. intros [= <-].
    cbn [map length]. now rewrite length_map.
Qed.

(** What a successful [prepare] holds of the sampler's two arrays. *)
Lemma prepare_latent host tts textList style speed w p w1 :
  TextToSpeech.prepare host tts textList style speed w = (Ok p, w1) ->
  exists mask w0,
    TextToSpeech.sampleNoisyLatent host (TextToSpeech.p_duration p)
      (TextToSpeech.sampleRate tts) (base_chunk_size (TextToSpeech.cfgs tts))
      (chunk_compress_factor (TextToSpeech.cfgs tts)) (latent_dim (TextToSpeech.cfgs tts)) w0
    = (Ok (TextToSpeech.p_xt p, mask), w1)
    /\ TextToSpeech.p_latent_mask p
       = mkTensor (concat (concat mask))
                  [Z.of_nat (length textList); 1%Z;
                   Z.of_nat (length (firstOr [] (firstOr [] mask)))].
Proof.
  unfold TextToSpeech.prepare, bind, lift.
  destruct (TextToSpeech.textTensors host tts textList) as [[idsT maskT]|e]; [|discriminate].
  cbn [record fst snd].
  destruct (TextToSpeech.scaleDuration speed _) as [duration|] eqn:Es; [|discriminate].
  unfold ret at 1.
  match goal with
  | |- context [TextToSpeech.sampleNoisyLatent ?h ?d ?a ?b ?c ?e ?w0] =>
      destruct (TextToSpeech.sampleNoisyLatent h d a b c e w0) as [[[xt mask]|e'] w'] eqn:E
  end; [|discriminate].
  unfold ret. intros [= <- <-]. eexists mask, _. cbn. split; [exact E|reflexivity].
Qed.

(** X14.  When the duration predictor returns one duration per text, every
    tensor that [infer] builds and feeds to a session holds as many values
    as its shape says: the text ids, the text mask, the noisy latent of
    every step, the latent mask, the two step tensors and the latent given
    to the vocoder. *)
Theorem infer_tensors_well_shaped (host : Host) (tts : TextToSpeech.t)
    (textList : list jsstring) (style : Style) (totalStep : Z) (speed : Q)
    (w w' : World) (wav duration : list Q) :
  (forall idsT maskT,
      length (TextToSpeech.dpOrt tts idsT (dp style) maskT) = length textList) ->
  TextToSpeech.infer host tts textList style totalStep speed w = (Ok (wav, duration), w') ->
  exists runs, calls w' = calls w ++ runs /\ Forall wellShapedCall runs.
Proof.
  intros Hdp H.
  destruct (infer_ok_inv _ _ _ _ _ _ _ _ _ H) as (p & w1 & Hp).
  rewrite (infer_after_prepare _ _ _ _ totalStep _ _ _ _ Hp) in H.
  destruct (prepare_ok_inv _ _ _ _ _ _ _ _ Hp) as (idsT & maskT & n & Ht & Hm & _ & Hs & ->).
  destruct (prepare_latent _ _ _ _ _ _ _ _ Hp) as (mask & w0 & Hsample & Hlm).
  injection H as _ _ <-.
  apply textTensors_wellShaped in Ht as [Hids Hmask].
  apply scaleDuration_length in Hs. rewrite Hdp in Hs.
  apply sampleNoisyLatent_ok_inv in Hsample
    as (dimVal & len & rows & Hxt & -> & Hrn & Hrows).
  rewrite Hs in Hxt, Hrn.
  assert (Hlatent : wellShaped (TextToSpeech.p_latent_mask p)).
  { rewrite Hlm. exact (wellShaped_maskTensor rows _ len Hrn Hrows). }
  destruct (feedsOfLoop_wellShaped tts (length textList)
              (TextToSpeech.loopFeeds (length textList) style totalStep p)
              (seq 0 (Z.to_nat totalStep)) (TextToSpeech.p_xt p))
    as [Hfeeds Hfinal].
  { eapply wellShaped_latentTensor, Hxt. }
  { exact Hlatent. }
  { cbn. now rewrite Hm. }
  { apply wellShaped_filledTensor. }
  eexists. split.
  - cbn [calls addCalls bumpDraws]. rewrite <- app_assoc. reflexivity.
  - apply Forall_app. split.
    + unfold textRuns. repeat constructor; assumption.
    + apply Forall_app. split.
      * apply Forall_map. exact Hfeeds.
      * constructor; [exact Hfinal|constructor].
Qed.

(** X14 at one text and two steps. *)
Lemma infer_tensors_well_shaped_witness :
  exists runs,
    calls (snd (TextToSpeech.infer exampleHost exampleTts [js "Hello there."] exampleStyle
                  2 1 emptyWorld)) = runs
    /\ Forall wellShapedCall runs
    /\ length runs = 5%nat.
Proof.
  let v := eval vm_compute in
             (TextToSpeech.infer exampleHost exampleTts [js "Hello there."] exampleStyle
                2 1 emptyWorld) in
  match v with
  | (Ok (?wav, ?duration), ?w') =>
      destruct (infer_tensors_well_shaped exampleHost exampleTts [js "Hello there."]
                  exampleStyle 2 1 emptyWorld w' wav duration
                  ltac:(reflexivity) ltac:(vm_compute; reflexivity))
        as (runs & Hc & Hr);
      exists runs; split; [|split; [exact Hr|]];
      [ transitivity (calls w'); [vm_compute; reflexivity|exact Hc]
      | cbn [calls emptyWorld app] in Hc; rewrite <- Hc; reflexivity ]
  end.
Defined.

(** ** WAV bytes read back; the voice style store; the facade *)
















Lemma VoiceStyleId_eqb_eq a b : VoiceStyleId_eqb a b = true <-> a = b.
Proof. destruct a, b; cbn; split; congruence. Qed.

Lemma VoiceStyleId_eqb_refl a : VoiceStyleId_eqb a a = true.
Proof. now apply VoiceStyleId_eqb_eq. Qed.

Lemma VoiceStyleId_eqb_neq a b : a <> b -> VoiceStyleId_eqb a b = false.
Proof.
  intros H. destruct (VoiceStyleId_eqb a b) eqn:E; [|reflexivity].
  now apply VoiceStyleId_eqb_eq in E.
Qed.

Lemma newFloat32Array_ok n :
  (0 <= n)%Z -> newFloat32Array n = Ok (replicate (Z.to_nat n) 0%Q).
Proof. intros H. unfold newFloat32Array. apply Z.leb_le in H. now rewrite H. Qed.

Lemma newFloat32Array_err n : (n < 0)%Z -> newFloat32Array n = Err RangeError.
Proof. intros H. unfold newFloat32Array. apply Z.leb_gt in H. now rewrite H. Qed.


Lemma typedArraySet_err (source : list Q) n :
  (n < length source)%nat -> typedArraySet source (replicate n 0%Q) = Err RangeError.
Proof.
  intros H. unfold typedArraySet. rewrite length_replicate.
  apply Nat.leb_gt in H. now rewrite H.
Qed.

(** [loadVoiceStyle] on a style that is not cached, as the two allocations
    and the two copies turn out. *)
Lemma loadVoiceStyle_miss host id w :
  globalStyleCache w id = None ->
  loadVoiceStyle host id w
  = let voiceStyle := fetchVoiceStyle host id in
    let '(_, ttlDim1, ttlDim2) := dims (style_ttl voiceStyle) in
    let '(_, dpDim1, dpDim2) := dims (style_dp voiceStyle) in
    match newFloat32Array (ttlDim1 * ttlDim2), newFloat32Array (dpDim1 * dpDim2) with
    | Ok ttlFlat, Ok dpFlat =>
        match typedArraySet (concat (concat (data (style_ttl voiceStyle)))) ttlFlat,
              typedArraySet (concat (concat (data (style_dp voiceStyle)))) dpFlat with
        | Ok ttlFlat', Ok dpFlat' =>
            (Ok {| ttl := mkTensor ttlFlat' [1; ttlDim1; ttlDim2]%Z;
                   dp := mkTensor dpFlat' [1; dpDim1; dpDim2]%Z |},
             cacheStyle id {| ttl := mkTensor ttlFlat' [1; ttlDim1; ttlDim2]%Z;
                              dp := mkTensor dpFlat' [1; dpDim1; dpDim2]%Z |} w)
        | _, _ => (Err RangeError, w)
        end
    | _, _ => (Err RangeError, w)
    end.
Proof.
  intros Hmiss. unfold loadVoiceStyle, bind at 1, getStyleCache. rewrite Hmiss.
  cbv zeta.
  destruct (dims (style_ttl (fetchVoiceStyle host id))) as [[x1 d1] d2].
  destruct (dims (style_dp (fetchVoiceStyle host id))) as [[y1 e1] e2].
  unfold bind, lift, newFloat32Array, typedArraySet.
  repeat match goal with
         | |- context [if ?b then _ else _] => destruct b
         end; reflexivity.
Qed.

(** X17.  Loading a voice style is idempotent: after a load that returned,
    the same id loads the same style and changes nothing, the cache holds
    that style under the id and its other entries are as before; the load
    of a cached id returns the cached style and changes nothing; no
    session is run and nothing is drawn. *)
Theorem loadVoiceStyle_cached (host : Host) (id : VoiceStyleId) (w w1 : World)
    (style : Style) :
  loadVoiceStyle host id w = (Ok style, w1) ->
  loadVoiceStyle host id w1 = (Ok style, w1)
  /\ globalStyleCache w1 id = Some style
  /\ (forall other, other <> id -> globalStyleCache w1 other = globalStyleCache w other)
  /\ (forall cached, globalStyleCache w id = Some cached -> style = cached /\ w1 = w)
  /\ calls w1 = calls w
  /\ draws w1 = draws w.
Proof.
  intros H.
  assert (Hhit : forall w0, globalStyleCache w0 id = Some style ->
                            loadVoiceStyle host id w0 = (Ok style, w0)).
  { intros w0 H0. unfold loadVoiceStyle, bind at 1, getStyleCache. now rewrite H0. }
  destruct (globalStyleCache w id) as [cached|] eqn:Ec.
  - unfold loadVoiceStyle, bind at 1, getStyleCache in H. rewrite Ec in H.
    injection H as <- <-. repeat apply conj; try easy.
    + now apply Hhit.
    + now intros c [= <-].
  - rewrite (loadVoiceStyle_miss host id w Ec) in H. cbv zeta in H.
    destruct (dims (style_ttl (fetchVoiceStyle host id))) as [[x1 d1] d2].
    destruct (dims (style_dp (fetchVoiceStyle host id))) as [[y1 e1] e2].
    destruct (newFloat32Array (d1 * d2)) as [ttlZeros|]; [|discriminate].
    destruct (newFloat32Array (e1 * e2)) as [dpZeros|]; [|discriminate].
    destruct (typedArraySet _ ttlZeros) as [ttlFlat|]; [|discriminate].
    destruct (typedArraySet _ dpZeros) as [dpFlat|]; [|discriminate].
    injection H as <- <-.
    assert (Hnow : globalStyleCache
                     (cacheStyle id {| ttl := mkTensor ttlFlat [1; d1; d2]%Z;
                                       dp := mkTensor dpFlat [1; e1; e2]%Z |} w) id
                   = Some {| ttl := mkTensor ttlFlat [1; d1; d2]%Z;
                             dp := mkTensor dpFlat [1; e1; e2]%Z |}).
    { cbn. now rewrite VoiceStyleId_eqb_refl. }
    repeat apply conj; try easy.
    + now apply Hhit.
    + intros other Hother. cbn. now rewrite VoiceStyleId_eqb_neq.
Qed.

(** X17 at the example asset, from the empty cache. *)
Lemma loadVoiceStyle_cached_witness :
  exists style w1,
    loadVoiceStyle exampleHost F1 emptyWorld = (Ok style, w1)
    /\ loadVoiceStyle exampleHost F1 w1 = (Ok style, w1)
    /\ globalStyleCache w1 F1 = Some style
    /\ globalStyleCache w1 M2 = None.
Proof.
  let v := eval vm_compute in (loadVoiceStyle exampleHost F1 emptyWorld) in
  match v with
  | (Ok ?style, ?w1) =>
      destruct (loadVoiceStyle_cached exampleHost F1 emptyWorld w1 style
                  ltac:(vm_compute; reflexivity))
        as (H1 & H2 & H3 & _);
      exists style, w1; split; [vm_compute; reflexivity|];
      split; [exact H1|]; split; [exact H2|];
      exact (H3 M2 ltac:(discriminate))
  end.
Defined.



(** X19.  For an id that is not cached and an asset one of whose tensors
    holds more values than [dims[1] * dims[2]] (a negative product
    included), [loadVoiceStyle] throws a RangeError and caches nothing, and
    [synthesize] for that voice throws it before any session is run. *)
Theorem loadVoiceStyle_bad_asset (host : Host) (id : VoiceStyleId) (w : World) :
  globalStyleCache w id = None ->
  ~ fitsDims (style_ttl (fetchVoiceStyle host id))
  \/ ~ fitsDims (style_dp (fetchVoiceStyle host id)) ->
  loadVoiceStyle host id w = (Err RangeError, w)
  /\ forall tts options,
       voiceStyle options = id -> synthesize host tts options w = (Err RangeError, w).
Proof.
  intros Hmiss Hbad.
  assert (Hload : loadVoiceStyle host id w = (Err RangeError, w)).
  { rewrite (loadVoiceStyle_miss host id w Hmiss). cbv zeta.
    unfold fitsDims in Hbad.
    destruct (dims (style_ttl (fetchVoiceStyle host id))) as [[x1 d1] d2].
    destruct (dims (style_dp (fetchVoiceStyle host id))) as [[y1 e1] e2].
    destruct (Z_lt_dec (d1 * d2) 0) as [Hd|Hd];
      [now rewrite (newFloat32Array_err _ Hd)|].
    rewrite (newFloat32Array_ok (d1 * d2)) by lia.
    destruct (Z_lt_dec (e1 * e2) 0) as [He|He];
      [now rewrite (newFloat32Array_err _ He)|].
    rewrite (newFloat32Array_ok (e1 * e2)) by lia.
    destruct Hbad as [Hbad|Hbad].
    - now rewrite typedArraySet_err by lia.
    - rewrite (typedArraySet_err _ (Z.to_nat (e1 * e2))) by lia.
      now destruct (typedArraySet _ _). }
  split; [exact Hload|].
  intros tts options <-. unfold synthesize.
  now rewrite (bind_err _ _ _ _ _ Hload).
Qed.

(** X19 at an asset with three values under the shape [[1, 1, 2]]. *)
Lemma loadVoiceStyle_bad_asset_witness :
  loadVoiceStyle overfullHost F1 emptyWorld = (Err RangeError, emptyWorld)
  /\ synthesize overfullHost exampleTts
       {| text := js "Hi."; voiceStyle := F1; totalStep := 5; speed := 1;
          silenceDurationSeconds := None |} emptyWorld
     = (Err RangeError, emptyWorld).
Proof.
  destruct (loadVoiceStyle_bad_asset overfullHost F1 emptyWorld eq_refl
              ltac:(left; cbn; lia)) as [H1 H2].
  split; [exact H1|]. now apply H2.
Defined.




